(** * CKEditor 5: find-and-replace result index and the view Observer base class

    A shallow embedding of

    - [packages/ckeditor5-find-and-replace/src/utils.js]
      ([updateFindResultFromRange], [rangeToText], [findInsertIndex]), and
    - [engine/view/observer/observer] (the abstract [Observer] class:
      constructor, [enable], [disable], [destroy],
      [checkShouldIgnoreEventFromTarget]),

    together with the properties of the specification that are settled on it. *)

From Stdlib Require Import ZArith Lia Ascii String.
From stdpp Require Import base list strings.

Local Open Scope Z_scope.

(** ** JavaScript completions

    A call either returns a value or throws.  [Throws] carries the name of the
    error. *)

Inductive Outcome (A : Type) : Type :=
| Returns (a : A)
| Throws (e : string).
Arguments Returns {A} a.
Arguments Throws {A} e.

Definition bindOutcome {A B} (m : Outcome A) (k : A -> Outcome B) : Outcome B :=
  match m with
  | Returns a => k a
  | Throws e => Throws e
  end.

Declare Scope js_scope.
Delimit Scope js_scope with js.
Notation "'let*' x ':=' m 'in' k" := (bindOutcome m (fun x => k))
  (at level 10, x name, m at level 100, k at level 200) : js_scope.

(** ** Positions of the model document

    [Position] lives in the engine package and is used here only through
    [isBefore].  It is taken as an interface: positions of one document are
    linearly ordered by document order, [isBefore] being the strict order. *)

Class DocumentOrder (P : Type) := {
  isBefore : P -> P -> bool;
  position_eq_dec :: EqDecision P;
  isBefore_irrefl : forall p, isBefore p p = false;
  isBefore_trans : forall p q r,
    isBefore p q = true -> isBefore q r = true -> isBefore p r = true;
  isBefore_total : forall p q,
    isBefore p q = false -> isBefore q p = false -> p = q
}.

(** Offsets counted from the beginning of the document, ordered by [<]:
    the positions used in the examples of the specification. *)
#[export, refine] Instance offsetOrder : DocumentOrder nat := {|
  isBefore := Nat.ltb
|}.
Proof.
  - intros p. apply Nat.ltb_irrefl.
  - intros p q r Hpq Hqr. apply Nat.ltb_lt in Hpq, Hqr. apply Nat.ltb_lt. lia.
  - intros p q Hpq Hqp. apply Nat.ltb_ge in Hpq, Hqp. lia.
Defined.

(** ** Model items and ranges *)

(** What [node.is( 'text' )] and [node.is( 'textProxy' )] tell apart; an
    element carries its name and the identity of the node. *)
Inductive Item : Type :=
| TextNode (data : string)
| TextProxy (data : string)
| Element (name : string) (node : nat).

Definition isText (node : Item) : bool :=
  match node with TextNode _ => true | _ => false end.

Definition isTextProxy (node : Item) : bool :=
  match node with TextProxy _ => true | _ => false end.

(** [node.data]; never read on an element by the code below. *)
Definition data (node : Item) : string :=
  match node with
  | TextNode d | TextProxy d => d
  | Element _ _ => ""
  end.

Inductive WalkerValueType : Type := elementStart | elementEnd | text.

(** The [{ type, item }] values a range yields when iterated. *)
Record WalkerValue : Type := { type : WalkerValueType; item : Item }.

(** A model range, through the two ways the code reads it: [[ ...range ]]
    and [range.getItems()]. *)
Record Range : Type := {
  walk : list WalkerValue;
  getItems : list Item
}.

Definition newline : string := String "010"%char "".

(** [rangeToText( range )]: a left-to-right [reduce] from the empty string. *)
Definition rangeToText (range : Range) : string :=
  fold_left
    (fun rangeText node =>
       if negb (isText node || isTextProxy node)
       then rangeText +:+ newline
       else rangeText +:+ data node)
    (getItems range) "".

(** Modelled from the spec, to compare [rangeToText] with: the flattened text
    is made by "concatenat[ing] text-node/text-segment content in document
    order", where an inline unit that is not text "contributes exactly one
    newline character in its place". *)
Definition contribution (node : Item) : string :=
  match node with
  | TextNode d | TextProxy d => d
  | Element _ _ => newline
  end.

Definition flattenedText (items : list Item) : string :=
  foldr (fun node rest => contribution node +:+ rest) "" items.

(** Modelled from the spec: "the number of atomic positions spanned" by a
    range whose items are siblings: one position per character of a text
    segment, one for an inline element such as [softBreak]. *)
Definition offsetSize (node : Item) : nat :=
  match node with
  | TextNode d | TextProxy d => String.length d
  | Element _ _ => 1%nat
  end.

Definition positionsSpanned (items : list Item) : nat :=
  foldr (fun node n => (offsetSize node + n)%nat) 0%nat items.

(** ** Markers, result records and the results collection *)

Section FindAndReplace.
Context {P : Type} `{DocumentOrder P}.

Record Marker : Type := {
  name : string;
  usingOperation : bool;
  affectsData : bool;
  rangeStart : P;
  rangeEnd : P
}.

Definition getStart (m : Marker) : P := rangeStart m.

(** The object literal [{ id, label, marker }] added to the results. *)
Record FindResult : Type := {
  id : string;
  label : string;
  marker : Marker
}.

#[export] Instance Marker_eq_dec : EqDecision Marker.
Proof. solve_decision. Defined.

#[export] Instance FindResult_eq_dec : EqDecision FindResult.
Proof. solve_decision. Defined.

(** Modelled from the spec: the [Collection] class of the utils package is
    not among the sources.  The results index "exposes [add(record, index)],
    [getIndex(record)], [length]" and is searched with [find]; a collection
    is the sequence of its items.  [getIndex] answers [-1] for an item that
    is not in the collection, and [add] rejects an index outside
    [0 .. length].  [getIndex] looks the item up as [indexOf] does; items
    with the same fields are not told apart here, which makes no difference
    to [findInsertIndex] (lemma [find_indexFrom]). *)
Definition Collection : Type := list FindResult.

Definition find (resultsList : Collection) (p : FindResult -> bool)
  : option FindResult :=
  List.find p resultsList.

Fixpoint indexFrom (i : Z) (items : list FindResult) (x : FindResult) : Z :=
  match items with
  | [] => -1
  | y :: rest => if decide (y = x) then i else indexFrom (i + 1) rest x
  end.

Definition getIndex (resultsList : Collection) (x : FindResult) : Z :=
  indexFrom 0 resultsList x.

Definition add (resultsList : Collection) (x : FindResult) (index : Z)
  : Outcome Collection :=
  if (index <? 0) || (Z.of_nat (length resultsList) <? index)
  then Throws "collection-add-item-invalid-index"
  else Returns (take (Z.to_nat index) resultsList ++ x :: drop (Z.to_nat index) resultsList).

(** [findInsertIndex( resultsList, markerToInsert )] *)
Definition findInsertIndex (resultsList : Collection) (markerToInsert : Marker) : Z :=
  let result :=
    find resultsList
      (fun r => isBefore (getStart markerToInsert) (getStart (marker r))) in
  match result with
  | Some r => getIndex resultsList r
  | None => Z.of_nat (length resultsList)
  end.

(** ** The scan: [updateFindResultFromRange] *)

(** One hit of the caller's [findCallback]: [{ start, end, label }]. *)
Record FoundItem : Type := {
  start : nat;
  end' : nat;
  foundLabel : string
}.

(** What a call of [findCallback( { item, text } )] can do: throw, answer a
    falsy value ([undefined], [null], ...), or answer an array of hits. *)
Inductive CallbackResult : Type :=
| CallbackThrows (e : string)
| CallbackFalsy
| CallbackFound (foundItems : list FoundItem).

(** The parts of [model] and of the [writer] the scan calls:
    [model.schema.checkChild( item, '$text' )], [model.createRangeIn( item )]
    and [writer.createPositionAt( item, offset )]. *)
Record Model : Type := {
  checkChild : Item -> string -> bool;
  createRangeIn : Item -> Range;
  createPositionAt : Item -> nat -> P
}.

(** [uid()] of the utils package: the token handed out by its n-th call. *)
Variable uid : nat -> string.

(** The objects the scan mutates in place: the [results] collection it is
    given, the marker collection of the model, and the uid generator. *)
Record World : Type := {
  results : Collection;
  markers : list Marker;
  uidCalls : nat
}.

(** A statement runs in a world and either completes or throws; what it
    changed before throwing stays changed. *)
Definition Stmt : Type := World -> Outcome unit * World.

(** [array.forEach( f )]: the first callback that throws ends the loop. *)
Fixpoint forEach {A} (items : list A) (f : A -> Stmt) : Stmt :=
  fun w =>
    match items with
    | [] => (Returns tt, w)
    | x :: rest =>
        match f x w with
        | (Returns _, w') => forEach rest f w'
        | (Throws e, w') => (Throws e, w')
        end
    end.

(** Modelled from the spec: [writer.addMarker( name, options )] of the engine
    is not among the sources; it "creates a non-data-affecting,
    non-operation-tracked range marker" over the given range in the marker
    collection of the document and returns it. *)
Definition addMarker (markerName : string) (usingOp affects : bool) (from to : P)
  (w : World) : Marker * World :=
  let m := {| name := markerName; usingOperation := usingOp; affectsData := affects;
              rangeStart := from; rangeEnd := to |} in
  (m, {| results := results w; markers := markers w ++ [m]; uidCalls := uidCalls w |}).

(** The body of [model.change( writer => ... )] for one hit. *)
Definition insertFoundItem (model : Model) (it : Item) (foundItem : FoundItem) : Stmt :=
  fun w =>
    let resultId := "findResult:" +:+ uid (uidCalls w) in
    let w := {| results := results w; markers := markers w; uidCalls := S (uidCalls w) |} in
    let '(m, w) :=
      addMarker resultId false false
        (createPositionAt model it (start foundItem))
        (createPositionAt model it (end' foundItem)) w in
    let index := findInsertIndex (results w) m in
    match add (results w) {| id := resultId; label := foundLabel foundItem; marker := m |} index with
    | Returns items =>
        (Returns tt, {| results := items; markers := markers w; uidCalls := uidCalls w |})
    | Throws e => (Throws e, w)
    end.

(** The callback of the outer [forEach], for one [{ type, item }]. *)
Definition scanValue (model : Model) (findCallback : Item -> string -> CallbackResult)
  (v : WalkerValue) : Stmt :=
  fun w =>
    match type v with
    | elementStart =>
        if checkChild model (item v) "$text" then
          match findCallback (item v) (rangeToText (createRangeIn model (item v))) with
          | CallbackThrows e => (Throws e, w)
          | CallbackFalsy => (Returns tt, w)
          | CallbackFound foundItems =>
              forEach foundItems (insertFoundItem model (item v)) w
          end
        else (Returns tt, w)
    | _ => (Returns tt, w)
    end.

(** [updateFindResultFromRange( range, model, findCallback, results )]; the
    [results] argument is the collection held by the world. *)
Definition updateFindResultFromRange (range : Range) (model : Model)
  (findCallback : Item -> string -> CallbackResult) : Stmt :=
  forEach (walk range) (scanValue model findCallback).

(** ** Vocabulary of the properties *)

(** The start position a record is ordered by. *)
Definition startOf (r : FindResult) : P := getStart (marker r).

(** The results are in document order: no record starts before its
    predecessor. *)
Fixpoint sortedByStart (l : Collection) : bool :=
  match l with
  | [] => true
  | r :: rest =>
      match rest with
      | [] => true
      | r' :: _ => negb (isBefore (startOf r') (startOf r)) && sortedByStart rest
      end
  end.

(** The number of leading items that do not satisfy [p]. *)
Fixpoint firstIndexWhere {A} (p : A -> bool) (l : list A) : nat :=
  match l with
  | [] => 0%nat
  | x :: rest => if p x then 0%nat else S (firstIndexWhere p rest)
  end.

(** Insertion in front of the first record that starts strictly later. *)
Fixpoint insertBeforeFirstLater (x : FindResult) (l : Collection) : Collection :=
  match l with
  | [] => [x]
  | y :: rest =>
      if isBefore (startOf x) (startOf y)
      then x :: y :: rest
      else y :: insertBeforeFirstLater x rest
  end.

End FindAndReplace.

Arguments Marker P : clear implicits.
Arguments FindResult P : clear implicits.
Arguments Collection P : clear implicits.
Arguments Model P : clear implicits.
Arguments World P : clear implicits.
Arguments Stmt P : clear implicits.

(** ** The DOM, as far as [checkShouldIgnoreEventFromTarget] reads it *)

(** The kinds of DOM nodes; only an element has attributes (kept here by
    their names). *)
Inductive NodeKind : Type :=
| ElementKind (attrs : list string)
| TextKind
| CDATASectionKind
| ProcessingInstructionKind
| CommentKind
| DocumentKind
| DocumentTypeKind
| DocumentFragmentKind.

(** A DOM node with its chain of parents; [parentNode] is [None] for
    [null]. *)
#[warnings="-register-all"]
Inductive DomNode : Type := mkDomNode {
  kind : NodeKind;
  parentNode : option DomNode
}.

(** Induction along the chain of parents. *)
Fixpoint DomNode_chain_ind (Q : DomNode -> Prop)
  (Hroot : forall k, Q (mkDomNode k None))
  (Hchild : forall k p, Q p -> Q (mkDomNode k (Some p)))
  (n : DomNode) : Q n :=
  match n with
  | mkDomNode k None => Hroot k
  | mkDomNode k (Some p) => Hchild k p (DomNode_chain_ind Q Hroot Hchild p)
  end.

(** [node.nodeType], with the constants of the DOM standard. *)
Definition nodeType (n : DomNode) : Z :=
  match kind n with
  | ElementKind _ => 1
  | TextKind => 3
  | CDATASectionKind => 4
  | ProcessingInstructionKind => 7
  | CommentKind => 8
  | DocumentKind => 9
  | DocumentTypeKind => 10
  | DocumentFragmentKind => 11
  end.

Definition attributes (n : DomNode) : list string :=
  match kind n with
  | ElementKind attrs => attrs
  | _ => []
  end.

(** What the [domTarget] argument can hold at run time. *)
Inductive DomTarget : Type :=
| JsNull
| JsUndefined
| JsNode (n : DomNode).

Definition truthy (v : DomTarget) : bool :=
  match v with JsNode _ => true | _ => false end.

(** Reading a property of [null] or [undefined] throws a [TypeError]. *)
Definition getNodeType (v : DomTarget) : Outcome Z :=
  match v with
  | JsNode n => Returns (nodeType n)
  | _ => Throws "TypeError"
  end.

Definition getParentNode (v : DomTarget) : Outcome DomTarget :=
  match v with
  | JsNode n =>
      Returns (match parentNode n with Some p => JsNode p | None => JsNull end)
  | _ => Throws "TypeError"
  end.

(** The platform's [Element.matches( selectors )] for the selectors the code
    uses: compounds [*] and [[attr]], chained by the descendant combinator,
    in a comma-separated list. *)
Inductive Compound : Type :=
| Universal
| HasAttribute (attr : string).

Inductive Complex : Type :=
| Just (c : Compound)
| Descendant (ancestor : Complex) (c : Compound).

Definition isElement (n : DomNode) : bool := nodeType n =? 1.

Definition hasAttribute (n : DomNode) (attr : string) : bool :=
  existsb (String.eqb attr) (attributes n).

Definition matchesCompound (c : Compound) (el : DomNode) : bool :=
  match c with
  | Universal => true
  | HasAttribute attr => hasAttribute el attr
  end.

(** Some element among the proper ancestors of [n] satisfies [p]. *)
Fixpoint anyAncestor (p : DomNode -> bool) (n : DomNode) : bool :=
  match n with
  | mkDomNode _ (Some a) => (isElement a && p a) || anyAncestor p a
  | mkDomNode _ None => false
  end.

Fixpoint matchesComplex (s : Complex) (el : DomNode) : bool :=
  match s with
  | Just c => matchesCompound c el
  | Descendant anc c => matchesCompound c el && anyAncestor (matchesComplex anc) el
  end.

(** Only elements have [matches]; calling it on anything else throws. *)
Definition matches (target : DomTarget) (selectors : list Complex) : Outcome bool :=
  match target with
  | JsNode n =>
      if isElement n
      then Returns (existsb (fun s => matchesComplex s n) selectors)
      else Throws "TypeError"
  | _ => Throws "TypeError"
  end.

(** ['[data-cke-ignore-events], [data-cke-ignore-events] *'] *)
Definition ignoreEventsSelector : list Complex :=
  [ Just (HasAttribute "data-cke-ignore-events");
    Descendant (Just (HasAttribute "data-cke-ignore-events")) Universal ].

Local Open Scope js_scope.

(** [checkShouldIgnoreEventFromTarget( domTarget )]; [&&] and [||] evaluate
    their right operand only when the left one does not decide. *)
Definition checkShouldIgnoreEventFromTarget (domTarget : DomTarget) : Outcome bool :=
  let* isTextNode :=
    (if truthy domTarget
     then let* t := getNodeType domTarget in Returns (t =? 3)
     else Returns false) in
  let* domTarget :=
    (if isTextNode then getParentNode domTarget else Returns domTarget) in
  let* notAnElement :=
    (if negb (truthy domTarget)
     then Returns true
     else let* t := getNodeType domTarget in Returns (negb (t =? 1))) in
  if notAnElement then Returns false else matches domTarget ignoreEventsSelector.

(** Modelled from the spec, to compare [checkShouldIgnoreEventFromTarget]
    with: "walk from the event's originating node (resolving a text-bearing
    node to its parent element first) upward; if no element ancestor is found
    return 'not ignored' [...]; otherwise return true iff the originating
    element or any ancestor carries an explicit 'ignore events' marker
    attribute". *)
Definition isTextNode (n : DomNode) : bool :=
  match kind n with TextKind => true | _ => false end.

Definition isElementNode (n : DomNode) : bool :=
  match kind n with ElementKind _ => true | _ => false end.

Definition resolveTarget (n : DomNode) : option DomNode :=
  if isTextNode n then parentNode n else Some n.

Fixpoint ancestors (n : DomNode) : list DomNode :=
  match n with
  | mkDomNode _ (Some p) => p :: ancestors p
  | mkDomNode _ None => []
  end.

Definition carriesIgnoreMarker (n : DomNode) : bool :=
  bool_decide ("data-cke-ignore-events" ∈ attributes n).

Definition ignorePolicy (n : DomNode) : bool :=
  match resolveTarget n with
  | None => false
  | Some target =>
      isElementNode target && existsb carriesIgnoreMarker (target :: ancestors target)
  end.

(** ** The Observer class *)

Section ObserverClass.
Context {Document View : Type}.

(** [view.document] *)
Variable documentOf : View -> Document.

(** A listener registered through the emitter mixin:
    [this.listenTo( emitter, event, callback )]. *)
Record Listener : Type := {
  emitter : nat;
  event : string;
  callback : nat
}.

(** The fields set by the constructor, and the listeners the mixed-in
    emitter keeps for the observer. *)
Record Observer : Type := {
  view : View;
  document : Document;
  isEnabled : bool;
  listeners : list Listener
}.

(** [new Observer( view )] *)
Definition construct (v : View) : Observer :=
  {| view := v; document := documentOf v; isEnabled := false; listeners := [] |}.

Definition enable (o : Observer) : Observer :=
  {| view := view o; document := document o; isEnabled := true; listeners := listeners o |}.

Definition disable (o : Observer) : Observer :=
  {| view := view o; document := document o; isEnabled := false; listeners := listeners o |}.

(** Modelled from the spec: [stopListening()] comes from the emitter mixin,
    which is not among the sources; called without arguments it "permanently
    detaches all event listeners this Observer registered on any emitter". *)
Definition stopListening (o : Observer) : Observer :=
  {| view := view o; document := document o; isEnabled := isEnabled o; listeners := [] |}.

Definition destroy (o : Observer) : Observer :=
  stopListening (disable o).

(** The callbacks of the observer that run when [emitter] fires [event]. *)
Definition listenersFor (o : Observer) (em : nat) (ev : string) : list Listener :=
  filter (fun l => emitter l = em /\ event l = ev) (listeners o).

(** The lifecycle calls made on an observer from outside. *)
Inductive Call : Type := CallEnable | CallDisable | CallDestroy.

Definition call (o : Observer) (c : Call) : Observer :=
  match c with
  | CallEnable => enable o
  | CallDisable => disable o
  | CallDestroy => destroy o
  end.

Definition callAll (o : Observer) (calls : list Call) : Observer :=
  fold_left call calls o.

(** [enable()] for [true], [disable()] for [false]. *)
Definition setEnabled (b : bool) : Call :=
  if b then CallEnable else CallDisable.

End ObserverClass.

Arguments Listener : clear implicits.
Arguments Observer Document View : clear implicits.

(** ** The example of the specification: records starting at 2, 5 and 9 *)

Definition markerAt (markerName : string) (from : nat) : Marker nat :=
  {| name := markerName; usingOperation := false; affectsData := false;
     rangeStart := from; rangeEnd := S from |}.

Definition recordAt (markerName : string) (from : nat) : FindResult nat :=
  {| id := markerName; label := "hit"; marker := markerAt markerName from |}.

Definition resultsAt_2_5_9 : Collection nat :=
  [ recordAt "findResult:a" 2; recordAt "findResult:b" 5; recordAt "findResult:c" 9 ].

(** ** A paragraph holding "ab", a soft break and "cd" *)

Definition paragraphAbCd : Item := Element "paragraph" 1.

Definition rangeInAbCd : Range :=
  {| walk := [ {| type := text; item := TextProxy "ab" |};
               {| type := elementStart; item := Element "softBreak" 2 |};
               {| type := elementEnd; item := Element "softBreak" 2 |};
               {| type := text; item := TextProxy "cd" |} ];
     getItems := [ TextProxy "ab"; Element "softBreak" 2; TextProxy "cd" ] |}.

(** ** A document of two paragraphs and a matcher that fails on the first *)

Definition firstParagraph : Item := Element "paragraph" 1.
Definition secondParagraph : Item := Element "paragraph" 2.

Definition rangeInCat : Range :=
  {| walk := [ {| type := text; item := TextProxy "cat" |} ];
     getItems := [ TextProxy "cat" ] |}.

(** Both paragraphs hold the text "cat"; the first spans the offsets from 10
    on, the second those from 20 on. *)
Definition twoParagraphs : Model nat :=
  {| checkChild := fun it child =>
       match it with Element "paragraph" _ => String.eqb child "$text" | _ => false end;
     createRangeIn := fun _ => rangeInCat;
     createPositionAt := fun it offset =>
       match it with Element _ n => (10 * n + offset)%nat | _ => offset end |}.

Definition walkOf (paragraph : Item) : list WalkerValue :=
  [ {| type := elementStart; item := paragraph |};
    {| type := text; item := TextProxy "cat" |};
    {| type := elementEnd; item := paragraph |} ].

Definition faultyOnFirst (it : Item) (txt : string) : CallbackResult :=
  match it with
  | Element _ 1 => CallbackThrows "MatcherFault"
  | Element _ _ => CallbackFound [ {| start := 0; end' := 3; foundLabel := txt |} ]
  | _ => CallbackFalsy
  end.

(** A matcher that answers [undefined] for the first paragraph. *)
Definition silentOnFirst (it : Item) (txt : string) : CallbackResult :=
  match it with
  | Element _ 1 => CallbackFalsy
  | Element _ _ => CallbackFound [ {| start := 0; end' := 3; foundLabel := txt |} ]
  | _ => CallbackFalsy
  end.

Definition letterUid (n : nat) : string :=
  String (ascii_of_nat (97 + n)) "".

Definition emptyWorld : World nat :=
  {| results := []; markers := []; uidCalls := 0 |}.

(** ** A small DOM: a widget marked to be ignored, and a plain paragraph *)

Definition documentNode : DomNode := mkDomNode DocumentKind None.

Definition bodyElement : DomNode := mkDomNode (ElementKind []) (Some documentNode).

Definition ignoredWidget : DomNode :=
  mkDomNode (ElementKind ["class"; "data-cke-ignore-events"]) (Some bodyElement).

Definition buttonInWidget : DomNode :=
  mkDomNode (ElementKind ["type"]) (Some ignoredWidget).

Definition textInWidget : DomNode := mkDomNode TextKind (Some ignoredWidget).

Definition plainParagraph : DomNode :=
  mkDomNode (ElementKind ["class"]) (Some bodyElement).

Definition detachedText : DomNode := mkDomNode TextKind None.

(** ** Further vocabulary: what the scan does for a value of the range *)

Section ScanVocabulary.
Context {P : Type} `{DocumentOrder P}.

(** The values for which the scan calls the matcher: the start of an element
    in which the schema allows text. *)
Definition scanned (model : Model P) (v : WalkerValue) : bool :=
  match type v with
  | elementStart => checkChild model (item v) "$text"
  | _ => false
  end.

(** The answer of the matcher for the element of a value. *)
Definition answerFor (model : Model P)
  (findCallback : Item -> string -> CallbackResult) (v : WalkerValue) : CallbackResult :=
  findCallback (item v) (rangeToText (createRangeIn model (item v))).

(** The hits the scan inserts for a value. *)
Definition hitsFor (model : Model P)
  (findCallback : Item -> string -> CallbackResult) (v : WalkerValue) : list FoundItem :=
  if scanned model v
  then match answerFor model findCallback v with
       | CallbackFound foundItems => foundItems
       | _ => []
       end
  else [].

(** The marker and the record the scan makes for a hit in [it] when [n]
    uids were drawn before. *)
Definition markerFor (uid : nat -> string) (model : Model P) (it : Item) (n : nat)
  (foundItem : FoundItem) : Marker P :=
  {| name := "findResult:" +:+ uid n;
     usingOperation := false;
     affectsData := false;
     rangeStart := createPositionAt model it (start foundItem);
     rangeEnd := createPositionAt model it (end' foundItem) |}.

Definition recordFor (uid : nat -> string) (model : Model P) (it : Item) (n : nat)
  (foundItem : FoundItem) : FindResult P :=
  {| id := "findResult:" +:+ uid n;
     label := foundLabel foundItem;
     marker := markerFor uid model it n foundItem |}.

(** The records for a list of hits, in the order of the hits. *)
Fixpoint recordsFrom (uid : nat -> string) (model : Model P) (it : Item) (n : nat)
  (foundItems : list FoundItem) : Collection P :=
  match foundItems with
  | [] => []
  | foundItem :: rest =>
      recordFor uid model it n foundItem :: recordsFrom uid model it (S n) rest
  end.

(** A record as the scan makes it: named after its marker, which is neither
    tracked by operations nor part of the data. *)
Definition madeByScan (r : FindResult P) : bool :=
  bool_decide (id r = name (marker r))
  && negb (usingOperation (marker r))
  && negb (affectsData (marker r)).

(** The ids in use come from uids that were already drawn. *)
Definition idsDrawn (uid : nat -> string) (w : World P) : Prop :=
  Forall (fun r => exists k : nat, (k < uidCalls w)%nat /\ id r = "findResult:" +:+ uid k)
         (results w).

End ScanVocabulary.

#[export] Instance Call_eq_dec : EqDecision Call.
Proof. solve_decision. Defined.

(** The last call of a sequence, if there is one. *)
Definition lastCall (calls : list Call) : option Call := last calls.

(** ** Further examples *)

(** The element holding "cat sat", with the hits for "cat" and "sat". *)
Definition catSatHits : list FoundItem :=
  [ {| start := 0; end' := 3; foundLabel := "cat" |};
    {| start := 4; end' := 7; foundLabel := "sat" |} ].

Definition findCatSat (it : Item) (txt : string) : CallbackResult :=
  CallbackFound catSatHits.

(** A uid generator that never repeats a token: [n] strokes for the n-th. *)
Fixpoint tallyUid (n : nat) : string :=
  match n with
  | O => ""
  | S n' => String "i" (tallyUid n')
  end.

Definition commentInWidget : DomNode := mkDomNode CommentKind (Some ignoredWidget).

Definition listenerOnClick : Listener := {| emitter := 1; event := "click"; callback := 7 |}.

Definition observerWithListener : Observer unit unit :=
  {| view := tt; document := tt; isEnabled := true; listeners := [listenerOnClick] |}.

(** * Properties *)

(** ** The insertion index *)

Section FindInsertIndexFacts.
Context {P : Type} `{DocumentOrder P}.
Implicit Types (l : Collection P) (m : Marker P) (r x : FindResult P).

Lemma isBefore_asym (p q : P) : isBefore p q = true -> isBefore q p = false.
Proof.
  intros Hpq. destruct (isBefore q p) eqn:Hqp; [|done].
  pose proof (isBefore_trans _ _ _ Hpq Hqp) as Hpp.
  by rewrite isBefore_irrefl in Hpp.
Qed.

(** "Not after" is transitive, because the order is linear. *)
Lemma notAfter_trans (p q r : P) :
  isBefore q p = false -> isBefore r q = false -> isBefore r p = false.
Proof.
  intros Hqp Hrq. destruct (isBefore r p) eqn:Hrp; [|done].
  destruct (isBefore p q) eqn:Hpq.
  - by rewrite (isBefore_trans _ _ _ Hrp Hpq) in Hrq.
  - rewrite (isBefore_total _ _ Hpq Hqp) in Hrp. by rewrite Hrp in Hrq.
Qed.

(** [getIndex] of the item [find] answers is the position [find] stopped at. *)
Lemma find_indexFrom (p : FindResult P -> bool) l (i : Z) :
  match List.find p l with
  | Some r => indexFrom i l r
  | None => i + Z.of_nat (length l)
  end = i + Z.of_nat (firstIndexWhere p l).
Proof.
  revert i. induction l as [|y rest IH]; intros i; simpl.
  - done.
  - destruct (p y) eqn:Hy.
    + rewrite decide_True by done. lia.
    + specialize (IH (i + 1)). destruct (List.find p rest) as [r|] eqn:Hfind.
      * rewrite decide_False; [lia|].
        intros ->. apply List.find_some in Hfind as [_ Hr]. congruence.
      * lia.
Qed.

Lemma findInsertIndex_firstIndexWhere l m :
  findInsertIndex l m
  = Z.of_nat (firstIndexWhere (fun r => isBefore (getStart m) (startOf r)) l).
Proof.
  unfold findInsertIndex, find, getIndex.
  pose proof (find_indexFrom (fun r => isBefore (getStart m) (startOf r)) l 0) as Hfind.
  unfold startOf in *.
  destruct (List.find _ l); lia.
Qed.

Lemma firstIndexWhere_le {A} (p : A -> bool) (l : list A) :
  (firstIndexWhere p l <= length l)%nat.
Proof. induction l as [|y rest IH]; simpl; [lia|]. destruct (p y); simpl; lia. Qed.

Lemma firstIndexWhere_before {A} (p : A -> bool) (l : list A) (k : nat) (a : A) :
  l !! k = Some a -> (k < firstIndexWhere p l)%nat -> p a = false.
Proof.
  revert k. induction l as [|y rest IH]; intros k Hk Hlt; simpl in *; [done|].
  destruct (p y) eqn:Hy; [lia|].
  destruct k as [|k]; simpl in Hk; [congruence|]. apply (IH k); [done|lia].
Qed.

Lemma firstIndexWhere_at {A} (p : A -> bool) (l : list A) (a : A) :
  l !! firstIndexWhere p l = Some a -> p a = true.
Proof.
  induction l as [|y rest IH]; simpl; [done|].
  destruct (p y) eqn:Hy; simpl; [congruence|done].
Qed.

Lemma findInsertIndex_range l m :
  0 <= findInsertIndex l m <= Z.of_nat (length l).
Proof.
  rewrite findInsertIndex_firstIndexWhere.
  pose proof (firstIndexWhere_le (fun r => isBefore (getStart m) (startOf r)) l). lia.
Qed.

(** [add] at the index of [findInsertIndex] never throws, and puts the record
    in front of the first record that starts strictly later. *)
Lemma add_at_findInsertIndex l x :
  add l x (findInsertIndex l (marker x)) = Returns (insertBeforeFirstLater x l).
Proof.
  unfold add. pose proof (findInsertIndex_range l (marker x)) as Hrange.
  rewrite orb_false_intro by lia. f_equal.
  rewrite findInsertIndex_firstIndexWhere, Nat2Z.id. fold (startOf x).
  induction l as [|y rest IH]; simpl; [done|].
  destruct (isBefore (startOf x) (startOf y)); simpl; [done|].
  f_equal. apply IH. apply findInsertIndex_range.
Qed.

Lemma sortedByStart_cons r l :
  sortedByStart (r :: l) = true ->
  sortedByStart l = true.
Proof. destruct l as [|r' rest]; simpl; [done|]. intros [_ ?]%andb_true_iff. done. Qed.

Lemma insertBeforeFirstLater_sorted x l :
  sortedByStart l = true -> sortedByStart (insertBeforeFirstLater x l) = true.
Proof.
  induction l as [|y rest IH]; intros Hsorted; [done|].
  cbn [insertBeforeFirstLater]. destruct (isBefore (startOf x) (startOf y)) eqn:Hxy.
  - change (negb (isBefore (startOf y) (startOf x)) && sortedByStart (y :: rest) = true).
    by rewrite (isBefore_asym _ _ Hxy), Hsorted.
  - pose proof (IH (sortedByStart_cons _ _ Hsorted)) as Htail.
    destruct rest as [|z rest'].
    + simpl. by rewrite Hxy.
    + cbn [insertBeforeFirstLater] in *.
      simpl in Hsorted. apply andb_true_iff in Hsorted as [Hyz _].
      destruct (isBefore (startOf x) (startOf z)).
      * change (negb (isBefore (startOf x) (startOf y))
                && sortedByStart (x :: z :: rest') = true).
        by rewrite Hxy, Htail.
      * change (negb (isBefore (startOf z) (startOf y))
                && sortedByStart (z :: insertBeforeFirstLater x rest') = true).
        by rewrite Hyz, Htail.
Qed.

Lemma sortedByStart_head r l (b : nat) rb :
  sortedByStart (r :: l) = true -> l !! b = Some rb ->
  isBefore (startOf rb) (startOf r) = false.
Proof.
  revert r b. induction l as [|z rest IH]; intros r b Hsorted Hb; [done|].
  simpl in Hsorted. apply andb_true_iff in Hsorted as [Hrz Hrest].
  apply negb_true_iff in Hrz.
  destruct b as [|b]; simpl in Hb.
  - by injection Hb as <-.
  - apply (notAfter_trans _ (startOf z)); [done|]. by apply (IH z b).
Qed.

(** In a sorted collection an earlier record never starts after a later one. *)
Lemma sortedByStart_lookup l (a b : nat) ra rb :
  sortedByStart l = true -> (a < b)%nat ->
  l !! a = Some ra -> l !! b = Some rb ->
  isBefore (startOf rb) (startOf ra) = false.
Proof.
  revert a b. induction l as [|y rest IH]; intros a b Hsorted Hab Ha Hb; [done|].
  destruct b as [|b]; [lia|]. simpl in Hb.
  destruct a as [|a]; simpl in Ha.
  - injection Ha as <-. by apply (sortedByStart_head y rest b).
  - apply (IH a b); [by eapply sortedByStart_cons|lia|done|done].
Qed.

Lemma isBefore_notAfter (p q r : P) :
  isBefore p q = true -> isBefore r q = false -> isBefore p r = true.
Proof.
  intros Hpq Hrq. destruct (isBefore p r) eqn:Hpr; [done|].
  destruct (isBefore r p) eqn:Hrp.
  - by rewrite (isBefore_trans _ _ _ Hrp Hpq) in Hrq.
  - rewrite (isBefore_total _ _ Hpr Hrp) in Hpq. by rewrite Hpq in Hrq.
Qed.

(** C1 (as the code has it): in a collection sorted by start, when some
    record starts where the new marker starts, [findInsertIndex] answers the
    index just behind the last such record: the record in front of that index
    has the start of the new marker, no record with that start sits at or
    behind the index, and every record from the index on starts strictly
    later.  The new record therefore goes behind the records of equal start. *)
Theorem findInsertIndex_behind_equal_start l m (k : nat) r :
  sortedByStart l = true ->
  l !! k = Some r ->
  startOf r = getStart m ->
  exists (i : nat) ri,
    findInsertIndex l m = Z.of_nat (S i) /\
    l !! i = Some ri /\ startOf ri = getStart m /\
    (forall (j : nat) rj, l !! j = Some rj -> startOf rj = getStart m -> (j <= i)%nat) /\
    (forall (j : nat) rj, l !! j = Some rj -> (i < j)%nat ->
       isBefore (getStart m) (startOf rj) = true).
Proof.
  intros Hsorted Hk Heq.
  set (p := fun r' : FindResult P => isBefore (getStart m) (startOf r')).
  set (n := firstIndexWhere p l).
  assert (Hlater : forall (j : nat) rj, l !! j = Some rj -> (n <= j)%nat -> p rj = true).
  { intros j rj Hj Hnj. destruct (decide (j = n)) as [->|Hne].
    - by apply (firstIndexWhere_at p l).
    - destruct (l !! n) as [rn|] eqn:Hn.
      + apply (isBefore_notAfter _ (startOf rn)).
        * by apply (firstIndexWhere_at p l).
        * apply (sortedByStart_lookup l n j); [done|lia|done|done].
      + apply lookup_ge_None in Hn. apply lookup_lt_Some in Hj. lia. }
  assert (Hequal : forall (j : nat) rj,
             l !! j = Some rj -> startOf rj = getStart m -> (j < n)%nat).
  { intros j rj Hj Hstart. destruct (decide (j < n)%nat) as [|Hge]; [done|].
    assert (p rj = true) as Hp by (apply (Hlater j); [done|lia]).
    unfold p in Hp. by rewrite Hstart, isBefore_irrefl in Hp. }
  pose proof (Hequal k r Hk Heq) as Hkn.
  destruct n as [|i] eqn:Hn; [lia|].
  assert (i < length l)%nat as Hi.
  { pose proof (firstIndexWhere_le p l). fold n in H0. lia. }
  destruct (lookup_lt_is_Some_2 l i Hi) as [ri Hri].
  exists i, ri. split_and!.
  - rewrite findInsertIndex_firstIndexWhere. fold p. fold n. by rewrite Hn.
  - done.
  - symmetry. apply isBefore_total.
    + apply (firstIndexWhere_before p l i); [done|fold n; lia].
    + destruct (decide (k = i)) as [Hki|Hne].
      { subst k. assert (Some ri = Some r) as [= ->].
        { transitivity (l !! i); [symmetry; exact Hri|exact Hk]. }
        rewrite Heq. apply isBefore_irrefl. }
      rewrite <- Heq. apply (sortedByStart_lookup l k i); [done|lia|done|done].
  - intros j rj Hj Hstart. pose proof (Hequal j rj Hj Hstart). lia.
  - intros j rj Hj Hij. apply (Hlater j); [done|lia].
Qed.

(** Inserting a record at the index [findInsertIndex] computes never throws
    and keeps a sorted collection sorted; the new collection is the old one
    with the record put in at that index. *)
Lemma add_at_findInsertIndex_sorted l x :
  sortedByStart l = true ->
  exists l',
    add l x (findInsertIndex l (marker x)) = Returns l' /\
    sortedByStart l' = true /\
    length l' = S (length l) /\
    l' = take (Z.to_nat (findInsertIndex l (marker x))) l
         ++ x :: drop (Z.to_nat (findInsertIndex l (marker x))) l.
Proof.
  intros Hsorted. exists (insertBeforeFirstLater x l).
  pose proof (add_at_findInsertIndex l x) as Hadd. split_and!.
  - done.
  - by apply insertBeforeFirstLater_sorted.
  - clear. induction l as [|y rest IH]; simpl; [done|].
    destruct (isBefore (startOf x) (startOf y)); simpl; lia.
  - unfold add in Hadd. destruct (_ || _); [done|]. by injection Hadd as <-.
Qed.

(** C7: in a collection of pairwise distinct starts, a marker whose start is
    none of them gets index [length] when it starts after every record, and
    index [0] when it starts before every record. *)
Theorem findInsertIndex_extremes l m :
  NoDup (startOf <$> l) ->
  getStart m ∉ (startOf <$> l) ->
  (Forall (fun r => isBefore (startOf r) (getStart m) = true) l ->
   findInsertIndex l m = Z.of_nat (length l)) /\
  (Forall (fun r => isBefore (getStart m) (startOf r) = true) l ->
   findInsertIndex l m = 0).
Proof.
  intros _ _. rewrite findInsertIndex_firstIndexWhere. split.
  - intros Hall. f_equal. induction Hall as [|y rest Hy _ IH]; simpl; [done|].
    by rewrite (isBefore_asym _ _ Hy), IH.
  - intros Hall. destruct Hall as [|y rest Hy _]; simpl; [done|]. by rewrite Hy.
Qed.

End FindInsertIndexFacts.

(** The specification's own example for C1 fails on the code: the records
    start at 2, 5 and 9, the first record starting at 5 has index 1, and the
    index computed for a new marker starting at 5 is 2. *)
Lemma findInsertIndex_not_before_equal_start :
  sortedByStart resultsAt_2_5_9 = true /\
  startOf <$> resultsAt_2_5_9 = [2; 5; 9]%nat /\
  findInsertIndex resultsAt_2_5_9 (markerAt "findResult:new" 5) = 2 /\
  ~ (forall (l : Collection nat) (m : Marker nat) (k : nat) (r : FindResult nat),
       sortedByStart l = true ->
       l !! k = Some r ->
       startOf r = getStart m ->
       (forall (j : nat) rj, (j < k)%nat -> l !! j = Some rj -> startOf rj <> getStart m) ->
       findInsertIndex l m = Z.of_nat k).
Proof.
  split_and!; [reflexivity..|].
  intros Hclaim.
  specialize (Hclaim resultsAt_2_5_9 (markerAt "findResult:new" 5) 1%nat
                (recordAt "findResult:b" 5) eq_refl eq_refl eq_refl).
  assert (findInsertIndex resultsAt_2_5_9 (markerAt "findResult:new" 5) = 1) as Habs.
  { apply Hclaim. intros [|j] rj Hj Hrj; [|lia].
    injection Hrj as <-. vm_compute. lia. }
  vm_compute in Habs. discriminate.
Qed.

Lemma findInsertIndex_behind_equal_start_witness :
  sortedByStart resultsAt_2_5_9 = true /\
  exists (i : nat) ri,
    findInsertIndex resultsAt_2_5_9 (markerAt "findResult:new" 5) = Z.of_nat (S i) /\
    resultsAt_2_5_9 !! i = Some ri /\ startOf ri = 5%nat /\
    (forall (j : nat) rj, resultsAt_2_5_9 !! j = Some rj -> startOf rj = 5%nat -> (j <= i)%nat) /\
    (forall (j : nat) rj, resultsAt_2_5_9 !! j = Some rj -> (i < j)%nat ->
       isBefore 5%nat (startOf rj) = true).
Proof.
  split; [reflexivity|].
  apply (findInsertIndex_behind_equal_start resultsAt_2_5_9
           (markerAt "findResult:new" 5) 1 (recordAt "findResult:b" 5));
    reflexivity.
Defined.

(** The examples of the specification for C7: start 10 gives index 3, start 0
    gives index 0. *)
Lemma findInsertIndex_extremes_witness :
  findInsertIndex resultsAt_2_5_9 (markerAt "findResult:new" 10) = 3 /\
  findInsertIndex resultsAt_2_5_9 (markerAt "findResult:new" 0) = 0.
Proof.
  split.
  - apply (findInsertIndex_extremes resultsAt_2_5_9 (markerAt "findResult:new" 10)).
    + compute_done.
    + compute_done.
    + repeat constructor.
  - apply (findInsertIndex_extremes resultsAt_2_5_9 (markerAt "findResult:new" 0)).
    + compute_done.
    + compute_done.
    + repeat constructor.
Defined.

(** ** Flattening a range *)

Section RangeToTextFacts.

Lemma append_nil_r (s : string) : s +:+ "" = s.
Proof.
  induction s as [|a s IH]; [done|].
  change (String a (s +:+ "") = String a s). by rewrite IH.
Qed.

Lemma append_assoc (s t u : string) : (s +:+ t) +:+ u = s +:+ (t +:+ u).
Proof.
  induction s as [|a s IH]; [done|].
  change (String a ((s +:+ t) +:+ u) = String a (s +:+ (t +:+ u))). by rewrite IH.
Qed.

Lemma length_append (s t : string) :
  String.length (s +:+ t) = (String.length s + String.length t)%nat.
Proof.
  induction s as [|a s IH]; [done|].
  change (S (String.length (s +:+ t)) = S (String.length s + String.length t)).
  by rewrite IH.
Qed.

(** One step of the [reduce] appends the contribution of the node. *)
Lemma reduce_step (rangeText : string) (node : Item) :
  (if negb (isText node || isTextProxy node)
   then rangeText +:+ newline
   else rangeText +:+ data node) = rangeText +:+ contribution node.
Proof. by destruct node. Qed.

Lemma reduce_from (acc : string) (items : list Item) :
  fold_left
    (fun rangeText node =>
       if negb (isText node || isTextProxy node)
       then rangeText +:+ newline
       else rangeText +:+ data node) items acc
  = acc +:+ flattenedText items.
Proof.
  revert acc. induction items as [|node rest IH]; intros acc; simpl.
  - by rewrite append_nil_r.
  - by rewrite IH, reduce_step, append_assoc.
Qed.

Lemma flattenedText_app (xs ys : list Item) :
  flattenedText (xs ++ ys) = flattenedText xs +:+ flattenedText ys.
Proof.
  induction xs as [|x xs IH]; simpl; [done|]. by rewrite IH, append_assoc.
Qed.

(** For sibling items the flattened text has one character per position. *)
Lemma flattenedText_length (items : list Item) :
  String.length (flattenedText items) = positionsSpanned items.
Proof.
  induction items as [|node rest IH]; simpl; [done|].
  rewrite length_append, IH. by destruct node.
Qed.

(** C6: [rangeToText] is the concatenation, in document order, of the data
    of the text items, with one newline for every item that is not text,
    put where the item stands; the range holding "ab", a soft break and "cd"
    flattens to the five characters of "ab\ncd", which is the number of
    positions the range spans. *)
Theorem rangeToText_flattens :
  (forall range, rangeToText range = flattenedText (getItems range)) /\
  (forall steps before elementName node after,
     rangeToText {| walk := steps;
                    getItems := before ++ Element elementName node :: after |}
     = flattenedText before +:+ newline +:+ flattenedText after) /\
  rangeToText rangeInAbCd = "ab" +:+ newline +:+ "cd" /\
  String.length (rangeToText rangeInAbCd) = 5%nat /\
  positionsSpanned (getItems rangeInAbCd) = String.length (rangeToText rangeInAbCd).
Proof.
  assert (Hflat : forall range, rangeToText range = flattenedText (getItems range)).
  { intros range. unfold rangeToText. by rewrite reduce_from. }
  split_and!; [done| |reflexivity..].
  intros steps before elementName node after.
  by rewrite Hflat; cbn [getItems]; rewrite flattenedText_app.
Qed.

End RangeToTextFacts.

(** ** The scan *)

Section ScanFacts.
Context {P : Type} `{DocumentOrder P}.
Variable uid : nat -> string.
Variable model : Model P.
Variable findCallback : Item -> string -> CallbackResult.
Implicit Types (w : World P) (v : WalkerValue).

Lemma forEach_app {A} (xs ys : list A) (f : A -> Stmt P) w :
  forEach (xs ++ ys) f w
  = match forEach xs f w with
    | (Returns _, w') => forEach ys f w'
    | (Throws e, w') => (Throws e, w')
    end.
Proof.
  revert w. induction xs as [|x xs IH]; intros w; simpl; [done|].
  destruct (f x w) as [[[]|e] w']; [apply IH|done].
Qed.

(** One insertion completes, and only adds: the record goes into the
    collection, its marker into the marker collection. *)
Lemma insertFoundItem_returns it foundItem w :
  exists x,
    insertFoundItem uid model it foundItem w
    = (Returns tt,
       {| results := insertBeforeFirstLater x (results w);
          markers := markers w ++ [marker x];
          uidCalls := S (uidCalls w) |}).
Proof.
  unfold insertFoundItem, addMarker. cbn [results markers uidCalls].
  eexists {| id := _; label := _; marker := _ |}.
  match goal with
  | |- context [add ?l ?x (findInsertIndex ?l ?m)] =>
      change m with (marker x); rewrite (add_at_findInsertIndex l x)
  end.
  reflexivity.
Qed.

Lemma insertBeforeFirstLater_sublist (x : FindResult P) (l : Collection P) :
  l `sublist_of` insertBeforeFirstLater x l.
Proof.
  induction l as [|y rest IH]; simpl.
  - apply sublist_nil_l.
  - destruct (isBefore (startOf x) (startOf y)).
    + by apply sublist_cons.
    + by apply sublist_skip.
Qed.

Lemma insertions_keep foundItems it w :
  results w `sublist_of` results (snd (forEach foundItems (insertFoundItem uid model it) w)).
Proof.
  revert w. induction foundItems as [|fi rest IH]; intros w; simpl; [done|].
  destruct (insertFoundItem_returns it fi w) as [x ->].
  etrans; [|apply IH]. apply insertBeforeFirstLater_sublist.
Qed.

Lemma scanValue_keeps v w :
  results w `sublist_of` results (snd (scanValue uid model findCallback v w)).
Proof.
  unfold scanValue. destruct (type v); [|done..].
  destruct (checkChild model (item v) "$text"); [|done].
  destruct (findCallback _ _); [done..|]. apply insertions_keep.
Qed.

(** The scan never drops or reorders a record that is in the results,
    however it ends. *)
Lemma scan_keeps (steps : list WalkerValue) w :
  results w `sublist_of` results (snd (forEach steps (scanValue uid model findCallback) w)).
Proof.
  revert w. induction steps as [|v rest IH]; intros w; simpl; [done|].
  pose proof (scanValue_keeps v w) as Hv.
  destruct (scanValue uid model findCallback v w) as [[[]|e] w']; [|done].
  etrans; [exact Hv|apply IH].
Qed.

(** C2 (as the code has it): when the matcher throws for an element, after
    the values in front of it were scanned without a throw, the whole call
    ends by throwing that error, in exactly the world the earlier values
    left: every record inserted for them, and every record present before
    the call, is still in the results, in its place. *)
Theorem throwing_matcher_ends_scan before v after items w w1 e :
  type v = elementStart ->
  checkChild model (item v) "$text" = true ->
  findCallback (item v) (rangeToText (createRangeIn model (item v))) = CallbackThrows e ->
  updateFindResultFromRange uid {| walk := before; getItems := items |} model findCallback w
    = (Returns tt, w1) ->
  updateFindResultFromRange uid {| walk := before ++ v :: after; getItems := items |}
    model findCallback w = (Throws e, w1) /\
  results w `sublist_of` results w1.
Proof.
  unfold updateFindResultFromRange. cbn [walk].
  intros Htype Hchild Hthrows Hbefore. split.
  - rewrite forEach_app, Hbefore. simpl.
    unfold scanValue. by rewrite Htype, Hchild, Hthrows.
  - pose proof (scan_keeps before w) as Hkeep. by rewrite Hbefore in Hkeep.
Qed.

(** C10: when the matcher answers a falsy value for an element, the step
    for that element completes and leaves the world as it was (no marker, no
    record, no uid drawn), and the scan of the range is the scan of the
    other values of the range. *)
Theorem falsy_matcher_skips_element v :
  type v = elementStart ->
  checkChild model (item v) "$text" = true ->
  findCallback (item v) (rangeToText (createRangeIn model (item v))) = CallbackFalsy ->
  (forall w, scanValue uid model findCallback v w = (Returns tt, w)) /\
  (forall before after items w,
     updateFindResultFromRange uid {| walk := before ++ v :: after; getItems := items |}
       model findCallback w
     = updateFindResultFromRange uid {| walk := before ++ after; getItems := items |}
         model findCallback w).
Proof.
  intros Htype Hchild Hfalsy.
  assert (Hstep : forall w, scanValue uid model findCallback v w = (Returns tt, w)).
  { intros w. unfold scanValue. by rewrite Htype, Hchild, Hfalsy. }
  split; [done|].
  intros before after items w. unfold updateFindResultFromRange. cbn [walk].
  rewrite !forEach_app.
  destruct (forEach before _ w) as [[[]|e] w']; [|done].
  simpl. by rewrite Hstep.
Qed.

Lemma insertions_sorted foundItems it w :
  sortedByStart (results w) = true ->
  sortedByStart (results (snd (forEach foundItems (insertFoundItem uid model it) w))) = true.
Proof.
  revert w. induction foundItems as [|fi rest IH]; intros w Hsorted; simpl; [done|].
  destruct (insertFoundItem_returns it fi w) as [x ->].
  apply IH. cbn [results]. by apply insertBeforeFirstLater_sorted.
Qed.

Lemma scanValue_sorted v w :
  sortedByStart (results w) = true ->
  sortedByStart (results (snd (scanValue uid model findCallback v w))) = true.
Proof.
  intros Hsorted. unfold scanValue. destruct (type v); [|done..].
  destruct (checkChild model (item v) "$text"); [|done].
  destruct (findCallback _ _); [done..|]. by apply insertions_sorted.
Qed.

Lemma scan_sorted (steps : list WalkerValue) w :
  sortedByStart (results w) = true ->
  sortedByStart (results (snd (forEach steps (scanValue uid model findCallback) w))) = true.
Proof.
  revert w. induction steps as [|v rest IH]; intros w Hsorted; simpl; [done|].
  pose proof (scanValue_sorted v w Hsorted) as Hv.
  destruct (scanValue uid model findCallback v w) as [[[]|e] w']; [|done].
  by apply IH.
Qed.

(** C4: when the results are sorted by start, adding any record at the index
    [findInsertIndex] computes for its marker completes and gives a
    collection that is sorted by start and one longer; so does the insertion
    the scan makes for a hit; and the results are sorted in whatever world
    [updateFindResultFromRange] stops, after every one of its insertions. *)
Theorem insertion_keeps_sortedByStart w :
  sortedByStart (results w) = true ->
  (forall x, exists l',
     add (results w) x (findInsertIndex (results w) (marker x)) = Returns l' /\
     sortedByStart l' = true /\
     length l' = S (length (results w))) /\
  (forall it foundItem, exists w',
     insertFoundItem uid model it foundItem w = (Returns tt, w') /\
     sortedByStart (results w') = true /\
     length (results w') = S (length (results w))) /\
  (forall range,
     sortedByStart
       (results (snd (updateFindResultFromRange uid range model findCallback w))) = true).
Proof.
  intros Hsorted. split_and!.
  - intros x. destruct (add_at_findInsertIndex_sorted (results w) x Hsorted)
      as (l' & Hadd & Hl' & Hlen & _). by exists l'.
  - intros it foundItem.
    destruct (insertFoundItem_returns it foundItem w) as [x Hx].
    eexists. split; [exact Hx|]. cbn [results].
    destruct (add_at_findInsertIndex_sorted (results w) x Hsorted)
      as (l' & Hadd & Hl' & Hlen & _).
    rewrite add_at_findInsertIndex in Hadd. injection Hadd as <-. done.
  - intros range. by apply scan_sorted.
Qed.

End ScanFacts.

(** The scan of the two paragraphs with a matcher that throws on the first:
    the call throws and the results stay empty, although the second
    paragraph alone gives one record.  The fault therefore does not skip
    just the element it happened in. *)
Lemma matcher_fault_is_not_local_to_element :
  updateFindResultFromRange letterUid
    {| walk := walkOf firstParagraph ++ walkOf secondParagraph; getItems := [] |}
    twoParagraphs faultyOnFirst emptyWorld
  = (Throws "MatcherFault", emptyWorld) /\
  length (results (snd (updateFindResultFromRange letterUid
    {| walk := walkOf secondParagraph; getItems := [] |}
    twoParagraphs faultyOnFirst emptyWorld))) = 1%nat /\
  ~ (forall (uid : nat -> string) (model : Model nat)
       (findCallback : Item -> string -> CallbackResult)
       (before : list WalkerValue) (v : WalkerValue) (after : list WalkerValue)
       (items : list Item) (w : World nat) (e : string),
       type v = elementStart ->
       checkChild model (item v) "$text" = true ->
       findCallback (item v) (rangeToText (createRangeIn model (item v))) = CallbackThrows e ->
       snd (updateFindResultFromRange uid
              {| walk := before ++ v :: after; getItems := items |} model findCallback w)
       = snd (updateFindResultFromRange uid
                {| walk := before ++ after; getItems := items |} model findCallback w)).
Proof.
  split_and!; [reflexivity..|].
  intros Hclaim.
  specialize (Hclaim letterUid twoParagraphs faultyOnFirst []
                {| type := elementStart; item := firstParagraph |}
                ([ {| type := text; item := TextProxy "cat" |};
                   {| type := elementEnd; item := firstParagraph |} ]
                 ++ walkOf secondParagraph)
                [] emptyWorld "MatcherFault" eq_refl eq_refl eq_refl).
  vm_compute in Hclaim. discriminate.
Qed.

Lemma throwing_matcher_ends_scan_witness :
  let scanned :=
    snd (updateFindResultFromRange letterUid
           {| walk := walkOf secondParagraph; getItems := [] |}
           twoParagraphs faultyOnFirst emptyWorld) in
  updateFindResultFromRange letterUid
    {| walk := walkOf secondParagraph ++ walkOf firstParagraph; getItems := [] |}
    twoParagraphs faultyOnFirst emptyWorld = (Throws "MatcherFault", scanned) /\
  results emptyWorld `sublist_of` results scanned.
Proof.
  exact (throwing_matcher_ends_scan letterUid twoParagraphs faultyOnFirst
           (walkOf secondParagraph)
           {| type := elementStart; item := firstParagraph |}
           [ {| type := text; item := TextProxy "cat" |};
             {| type := elementEnd; item := firstParagraph |} ]
           [] emptyWorld _ "MatcherFault" eq_refl eq_refl eq_refl eq_refl).
Defined.

Lemma falsy_matcher_skips_element_witness :
  (forall w, scanValue letterUid twoParagraphs silentOnFirst
               {| type := elementStart; item := firstParagraph |} w = (Returns tt, w)) /\
  (forall before after items w,
     updateFindResultFromRange letterUid
       {| walk := before ++ {| type := elementStart; item := firstParagraph |} :: after;
          getItems := items |} twoParagraphs silentOnFirst w
     = updateFindResultFromRange letterUid
         {| walk := before ++ after; getItems := items |} twoParagraphs silentOnFirst w).
Proof.
  apply (falsy_matcher_skips_element letterUid twoParagraphs silentOnFirst
           {| type := elementStart; item := firstParagraph |});
    reflexivity.
Defined.

Lemma insertion_keeps_sortedByStart_witness :
  let w := {| results := resultsAt_2_5_9; markers := []; uidCalls := 3 |} in
  sortedByStart (results w) = true /\
  (forall x, exists l',
     add (results w) x (findInsertIndex (results w) (marker x)) = Returns l' /\
     sortedByStart l' = true /\
     length l' = S (length (results w))) /\
  (forall it foundItem, exists w',
     insertFoundItem letterUid twoParagraphs it foundItem w = (Returns tt, w') /\
     sortedByStart (results w') = true /\
     length (results w') = S (length (results w))) /\
  (forall range,
     sortedByStart
       (results (snd (updateFindResultFromRange letterUid range twoParagraphs
                        faultyOnFirst w))) = true).
Proof.
  split; [reflexivity|].
  apply (insertion_keeps_sortedByStart letterUid twoParagraphs faultyOnFirst
           {| results := resultsAt_2_5_9; markers := []; uidCalls := 3 |}).
  reflexivity.
Defined.

(** ** Filtering event targets *)

Section EventTargetFacts.

Lemma hasAttribute_carries (n : DomNode) :
  hasAttribute n "data-cke-ignore-events" = carriesIgnoreMarker n.
Proof.
  unfold hasAttribute, carriesIgnoreMarker.
  induction (attributes n) as [|a rest IH]; [done|].
  cbn [existsb]. rewrite IH.
  destruct (String.eqb_spec "data-cke-ignore-events" a) as [<-|Hne]; cbn [orb].
  - symmetry. apply bool_decide_eq_true. apply list_elem_of_here.
  - apply bool_decide_ext. rewrite elem_of_cons. split; [by right|by intros [?|?]].
Qed.

(** Only an element carries attributes. *)
Lemma carries_isElement (n : DomNode) :
  carriesIgnoreMarker n = true -> isElement n = true.
Proof.
  unfold carriesIgnoreMarker, isElement, attributes, nodeType.
  intros Hin%bool_decide_eq_true. destruct (kind n); try done; by apply elem_of_nil in Hin.
Qed.

Lemma isElement_isElementNode (n : DomNode) : isElement n = isElementNode n.
Proof. unfold isElement, isElementNode, nodeType. by destruct (kind n). Qed.

Lemma isTextNode_nodeType (n : DomNode) : (nodeType n =? 3) = isTextNode n.
Proof. unfold isTextNode, nodeType. by destruct (kind n). Qed.

Lemma anyAncestor_ancestors (n : DomNode) :
  anyAncestor (matchesComplex (Just (HasAttribute "data-cke-ignore-events"))) n
  = existsb carriesIgnoreMarker (ancestors n).
Proof.
  induction n as [k|k p IH] using DomNode_chain_ind; [done|].
  cbn [anyAncestor ancestors existsb]. rewrite IH. f_equal.
  cbn [matchesComplex matchesCompound]. rewrite hasAttribute_carries.
  destruct (carriesIgnoreMarker p) eqn:Hp; [|by rewrite andb_false_r].
  by rewrite (carries_isElement p Hp).
Qed.

(** What the selector of the code says of an element. *)
Lemma matches_ignoreEventsSelector (el : DomNode) :
  existsb (fun s => matchesComplex s el) ignoreEventsSelector
  = existsb carriesIgnoreMarker (el :: ancestors el).
Proof.
  cbn [ignoreEventsSelector existsb]. rewrite orb_false_r.
  cbn [matchesComplex]. rewrite anyAncestor_ancestors.
  cbn [matchesCompound]. by rewrite hasAttribute_carries.
Qed.

Lemma check_on_element (el : DomNode) :
  isElementNode el = true ->
  checkShouldIgnoreEventFromTarget (JsNode el)
  = Returns (existsb carriesIgnoreMarker (el :: ancestors el)).
Proof.
  intros Hel. unfold checkShouldIgnoreEventFromTarget. cbn [truthy getNodeType bindOutcome].
  rewrite isTextNode_nodeType.
  assert (isTextNode el = false) as -> by (unfold isTextNode, isElementNode in *; by destruct (kind el)).
  cbn [truthy negb getNodeType bindOutcome].
  fold (isElement el). rewrite isElement_isElementNode, Hel. cbn [negb matches].
  by rewrite isElement_isElementNode, Hel, matches_ignoreEventsSelector.
Qed.

Lemma check_on_other (n : DomNode) :
  isElementNode n = false -> isTextNode n = false ->
  checkShouldIgnoreEventFromTarget (JsNode n) = Returns false.
Proof.
  intros Hel Htext. unfold checkShouldIgnoreEventFromTarget.
  cbn [truthy getNodeType bindOutcome]. rewrite isTextNode_nodeType, Htext.
  cbn [truthy negb getNodeType bindOutcome].
  fold (isElement n). by rewrite isElement_isElementNode, Hel.
Qed.

Lemma check_on_text (n : DomNode) :
  isTextNode n = true ->
  checkShouldIgnoreEventFromTarget (JsNode n)
  = match parentNode n with
    | Some p =>
        if isElementNode p
        then Returns (existsb carriesIgnoreMarker (p :: ancestors p))
        else Returns false
    | None => Returns false
    end.
Proof.
  intros Htext. unfold checkShouldIgnoreEventFromTarget.
  cbn [truthy getNodeType bindOutcome]. rewrite isTextNode_nodeType, Htext.
  cbn [getParentNode bindOutcome].
  destruct (parentNode n) as [p|]; [|done].
  cbn [truthy negb getNodeType bindOutcome].
  fold (isElement p). rewrite isElement_isElementNode.
  destruct (isElementNode p) eqn:Hp; [|done]. cbn [negb matches].
  by rewrite isElement_isElementNode, Hp, matches_ignoreEventsSelector.
Qed.

Lemma check_is_policy (n : DomNode) :
  checkShouldIgnoreEventFromTarget (JsNode n) = Returns (ignorePolicy n).
Proof.
  unfold ignorePolicy, resolveTarget. destruct (isTextNode n) eqn:Htext.
  - rewrite check_on_text by done. destruct (parentNode n) as [p|]; [|done].
    by destruct (isElementNode p).
  - destruct (isElementNode n) eqn:Hel.
    + by rewrite check_on_element.
    + by rewrite check_on_other.
Qed.

(** C5: on every DOM node the method computes the policy of the
    specification: a text node stands for its parent; a target that is not
    an element is not ignored; an element is ignored exactly when it or one
    of its ancestors carries [data-cke-ignore-events].  So a text node whose
    parent element carries the attribute is ignored, and an element without
    the attribute on itself and on all its ancestors is not. *)
Theorem checkShouldIgnoreEventFromTarget_policy (n : DomNode) :
  checkShouldIgnoreEventFromTarget (JsNode n) = Returns (ignorePolicy n) /\
  (forall p,
     isTextNode n = true -> parentNode n = Some p ->
     isElementNode p = true -> carriesIgnoreMarker p = true ->
     checkShouldIgnoreEventFromTarget (JsNode n) = Returns true) /\
  (isElementNode n = true ->
   Forall (fun a => carriesIgnoreMarker a = false) (n :: ancestors n) ->
   checkShouldIgnoreEventFromTarget (JsNode n) = Returns false).
Proof.
  split_and!.
  - apply check_is_policy.
  - intros p Htext Hparent Hel Hcarries. rewrite check_on_text, Hparent, Hel by done.
    cbn [existsb]. by rewrite Hcarries.
  - intros Hel Hnone. rewrite check_on_element by done. f_equal.
    induction Hnone as [|a rest Ha _ IH]; [done|]. cbn [existsb]. by rewrite Ha, IH.
Qed.

(** C9: the method never throws: for [null] and for [undefined] it answers
    [false], for a text node without parent it answers [false], and for
    every value of the argument it answers a boolean. *)
Theorem checkShouldIgnoreEventFromTarget_total :
  checkShouldIgnoreEventFromTarget JsNull = Returns false /\
  checkShouldIgnoreEventFromTarget JsUndefined = Returns false /\
  (forall n, nodeType n = 3 -> parentNode n = None ->
             checkShouldIgnoreEventFromTarget (JsNode n) = Returns false) /\
  (forall domTarget, exists b, checkShouldIgnoreEventFromTarget domTarget = Returns b).
Proof.
  split_and!; [done|done| |].
  - intros n Htype Hparent. rewrite check_on_text, Hparent; [done|].
    rewrite <- isTextNode_nodeType, Htype. done.
  - intros [| |n]; [by exists false..|].
    rewrite check_is_policy. eauto.
Qed.

End EventTargetFacts.

(** The examples of the specification for C5, and an element below the
    marked widget. *)
Lemma checkShouldIgnoreEventFromTarget_policy_witness :
  checkShouldIgnoreEventFromTarget (JsNode textInWidget) = Returns true /\
  checkShouldIgnoreEventFromTarget (JsNode plainParagraph) = Returns false /\
  checkShouldIgnoreEventFromTarget (JsNode detachedText) = Returns false /\
  checkShouldIgnoreEventFromTarget (JsNode buttonInWidget) = Returns true.
Proof.
  split_and!.
  - apply (proj1 (proj2 (checkShouldIgnoreEventFromTarget_policy textInWidget))
             ignoredWidget); reflexivity.
  - apply (proj2 (proj2 (checkShouldIgnoreEventFromTarget_policy plainParagraph)));
      [reflexivity|]. repeat constructor.
  - rewrite (proj1 (checkShouldIgnoreEventFromTarget_policy detachedText)). reflexivity.
  - rewrite (proj1 (checkShouldIgnoreEventFromTarget_policy buttonInWidget)). reflexivity.
Defined.

(** ** The lifecycle of an observer *)

Section ObserverFacts.
Context {Document View : Type}.
Variable documentOf : View -> Document.
Implicit Types (o : Observer Document View) (calls : list Call).

Lemma callAll_snoc o calls (c : Call) :
  callAll o (calls ++ [c]) = call (callAll o calls) c.
Proof. unfold callAll. by rewrite fold_left_app. Qed.

(** [enable] and [disable] touch nothing but the flag. *)
Lemma setEnabled_fields o (b : bool) :
  view (call o (setEnabled b)) = view o /\
  document (call o (setEnabled b)) = document o /\
  listeners (call o (setEnabled b)) = listeners o /\
  isEnabled (call o (setEnabled b)) = b.
Proof. by destruct b. Qed.

(** No lifecycle call registers a listener. *)
Lemma call_listeners_nil o (c : Call) :
  listeners o = [] -> listeners (call o c) = [].
Proof. by destruct c. Qed.

Lemma callAll_listeners_nil o calls :
  listeners o = [] -> listeners (callAll o calls) = [].
Proof.
  revert o. induction calls as [|c rest IH]; intros o Hnone; [done|].
  apply IH. by apply call_listeners_nil.
Qed.

(** C8: a new observer is disabled; after any sequence of [enable()] and
    [disable()] calls, on a new observer or on any other, the flag is the
    one of the last call, and the view, the document and the listeners are
    what they were; calling [enable()] or [disable()] twice is calling it
    once. *)
Theorem enabled_flag_follows_last_call (v : View) o (toggles : list bool) :
  isEnabled (construct documentOf v) = false /\
  isEnabled (callAll (construct documentOf v) (setEnabled <$> toggles))
    = List.last toggles false /\
  isEnabled (callAll o (setEnabled <$> toggles)) = List.last toggles (isEnabled o) /\
  view (callAll o (setEnabled <$> toggles)) = view o /\
  document (callAll o (setEnabled <$> toggles)) = document o /\
  listeners (callAll o (setEnabled <$> toggles)) = listeners o /\
  enable (enable o) = enable o /\
  disable (disable o) = disable o.
Proof.
  assert (Hrun : forall o',
    isEnabled (callAll o' (setEnabled <$> toggles)) = List.last toggles (isEnabled o') /\
    view (callAll o' (setEnabled <$> toggles)) = view o' /\
    document (callAll o' (setEnabled <$> toggles)) = document o' /\
    listeners (callAll o' (setEnabled <$> toggles)) = listeners o').
  { induction toggles as [|b rest IH] using rev_ind; intros o'; [done|].
    rewrite fmap_app. change (setEnabled <$> [b]) with [setEnabled b].
    rewrite callAll_snoc, List.last_last.
    destruct (setEnabled_fields (callAll o' (setEnabled <$> rest)) b)
      as (Hview & Hdoc & Hlisteners & Hflag).
    destruct (IH o') as (_ & IHview & IHdoc & IHlisteners).
    rewrite Hview, Hdoc, Hlisteners, Hflag. done. }
  destruct (Hrun o) as (? & ? & ? & ?).
  destruct (Hrun (construct documentOf v)) as (? & _).
  split_and!; done.
Qed.

(** C3 (as the code has it): right after [destroy()] the flag is [false]
    and no listener is left; whatever lifecycle calls follow, no listener
    comes back, so no callback of the observer runs for any event of any
    emitter; the flag, though, is not locked: an [enable()] after
    [destroy()] sets it to [true] again. *)
Theorem destroy_releases_for_good o calls :
  isEnabled (destroy o) = false /\
  listeners (destroy o) = [] /\
  listeners (callAll (destroy o) calls) = [] /\
  (forall em ev, listenersFor (callAll (destroy o) calls) em ev = []) /\
  isEnabled (callAll (destroy o) (calls ++ [CallEnable])) = true.
Proof.
  assert (Hnone : listeners (callAll (destroy o) calls) = [])
    by by apply callAll_listeners_nil.
  split_and!; [done|done|done| |].
  - intros em ev. unfold listenersFor. by rewrite Hnone.
  - by rewrite callAll_snoc.
Qed.

End ObserverFacts.

(** An observer that was destroyed is enabled by the next [enable()]. *)
Lemma destroyed_observer_can_be_enabled :
  isEnabled (callAll (construct (fun _ : unit => tt) tt) [CallDestroy; CallEnable]) = true /\
  ~ (forall (o : Observer unit unit) (calls : list Call),
       isEnabled (callAll (destroy o) calls) = false).
Proof.
  split; [reflexivity|].
  intros Hclaim.
  specialize (Hclaim (construct (fun _ : unit => tt) tt) [CallEnable]).
  discriminate Hclaim.
Qed.

(** * Further properties of the code *)

(** ** More on the insertion index *)

Section FindInsertIndexMore.
Context {P : Type} `{DocumentOrder P}.
Implicit Types (l : Collection P) (m : Marker P) (r x : FindResult P).

Lemma firstIndexWhere_length_iff {A} (p : A -> bool) (items : list A) :
  firstIndexWhere p items = length items <-> Forall (fun a => p a = false) items.
Proof.
  induction items as [|a rest IH]; simpl.
  - split; [constructor|done].
  - destruct (p a) eqn:Ha.
    + split; [done|]. intros Hall. apply Forall_cons in Hall as [Hfalse _]. congruence.
    + rewrite Forall_cons, <- IH. split; [intros [= ->]; done|intros [_ ->]; done].
Qed.

Lemma firstIndexWhere_mono {A} (p q : A -> bool) (items : list A) :
  (forall a, q a = true -> p a = true) ->
  (firstIndexWhere p items <= firstIndexWhere q items)%nat.
Proof.
  intros Hqp. induction items as [|a rest IH]; simpl; [lia|].
  destruct (p a) eqn:Hp; [lia|].
  destruct (q a) eqn:Hq; [|lia]. rewrite (Hqp a Hq) in Hp. done.
Qed.

Lemma insertBeforeFirstLater_end x l :
  Forall (fun r => isBefore (startOf x) (startOf r) = false) l ->
  insertBeforeFirstLater x l = l ++ [x].
Proof.
  induction 1 as [|y rest Hy _ IH]; simpl; [done|]. by rewrite Hy, IH.
Qed.

(** X1: on any collection, sorted or not, [findInsertIndex] answers an index
    between 0 and the length, in front of which no record starts after the
    marker, and at which, if a record is there, that record starts strictly
    after the marker. *)
Theorem findInsertIndex_first_later l m :
  exists i : nat,
    findInsertIndex l m = Z.of_nat i /\
    (i <= length l)%nat /\
    (forall (j : nat) r, (j < i)%nat -> l !! j = Some r ->
       isBefore (getStart m) (startOf r) = false) /\
    (forall r, l !! i = Some r -> isBefore (getStart m) (startOf r) = true).
Proof.
  set (p := fun r : FindResult P => isBefore (getStart m) (startOf r)).
  exists (firstIndexWhere p l). split_and!.
  - apply findInsertIndex_firstIndexWhere.
  - apply firstIndexWhere_le.
  - intros j r Hj Hr. by apply (firstIndexWhere_before p l j).
  - intros r Hr. by apply (firstIndexWhere_at p l).
Qed.

(** X2: [findInsertIndex] answers the length of the collection exactly when
    no record starts strictly after the marker, records of equal start
    included; adding the record at that index then appends it. *)
Theorem findInsertIndex_end_iff l x :
  (findInsertIndex l (marker x) = Z.of_nat (length l)
   <-> Forall (fun r => isBefore (startOf x) (startOf r) = false) l) /\
  (Forall (fun r => isBefore (startOf x) (startOf r) = false) l ->
   add l x (findInsertIndex l (marker x)) = Returns (l ++ [x])).
Proof.
  split.
  - rewrite findInsertIndex_firstIndexWhere, <- firstIndexWhere_length_iff.
    unfold startOf. split; [intros Heq; by apply Nat2Z.inj|by intros ->].
  - intros Hall. by rewrite add_at_findInsertIndex, insertBeforeFirstLater_end.
Qed.

Lemma notAfter_isBefore (p q r : P) :
  isBefore q p = false -> isBefore q r = true -> isBefore p r = true.
Proof.
  intros Hqp Hqr. destruct (isBefore p r) eqn:Hpr; [done|].
  destruct (isBefore r p) eqn:Hrp.
  - by rewrite (isBefore_trans _ _ _ Hqr Hrp) in Hqp.
  - rewrite (isBefore_total _ _ Hpr Hrp) in Hqp. by rewrite Hqp in Hqr.
Qed.

(** X3: the index grows with the start of the marker: a marker that does
    not start after another one never gets a larger index than it. *)
Theorem findInsertIndex_monotone l m1 m2 :
  isBefore (getStart m2) (getStart m1) = false ->
  findInsertIndex l m1 <= findInsertIndex l m2.
Proof.
  intros Hle. rewrite !findInsertIndex_firstIndexWhere. apply inj_le.
  apply firstIndexWhere_mono. intros r Hr. by apply (notAfter_isBefore _ (getStart m2)).
Qed.

End FindInsertIndexMore.

Lemma findInsertIndex_monotone_witness :
  isBefore 5%nat 5%nat = false /\
  findInsertIndex resultsAt_2_5_9 (markerAt "findResult:m" 5)
  <= findInsertIndex resultsAt_2_5_9 (markerAt "findResult:n" 5) /\
  findInsertIndex resultsAt_2_5_9 (markerAt "findResult:m" 3)
  <= findInsertIndex resultsAt_2_5_9 (markerAt "findResult:n" 9).
Proof.
  split; [reflexivity|]. split.
  - apply (findInsertIndex_monotone resultsAt_2_5_9
             (markerAt "findResult:m" 5) (markerAt "findResult:n" 5)). reflexivity.
  - apply (findInsertIndex_monotone resultsAt_2_5_9
             (markerAt "findResult:m" 3) (markerAt "findResult:n" 9)). reflexivity.
Defined.

(** ** More on flattening *)

Section RangeToTextMore.

Lemma rangeToText_is_flattenedText (range : Range) :
  rangeToText range = flattenedText (getItems range).
Proof. unfold rangeToText. by rewrite reduce_from. Qed.

(** X4: the text of a range whose items are those of two ranges, one after
    the other, is the text of the first followed by the text of the second;
    a range without items gives the empty string. *)
Theorem rangeToText_concatenation (first second both : Range) :
  getItems both = getItems first ++ getItems second ->
  rangeToText both = rangeToText first +:+ rangeToText second.
Proof.
  intros Hitems. rewrite !rangeToText_is_flattenedText, Hitems.
  apply flattenedText_app.
Qed.

(** X5: how the text of a range is cut into text items makes no difference:
    two adjacent text items give what the one item with the joined data
    gives, whether they are text nodes or text proxies. *)
Theorem rangeToText_text_chunks steps steps' before after (a b : string) :
  let joined := rangeToText
    {| walk := steps; getItems := before ++ TextProxy (a +:+ b) :: after |} in
  rangeToText {| walk := steps'; getItems := before ++ TextProxy a :: TextProxy b :: after |}
    = joined /\
  rangeToText {| walk := steps'; getItems := before ++ TextNode a :: TextProxy b :: after |}
    = joined /\
  rangeToText {| walk := steps'; getItems := before ++ TextNode (a +:+ b) :: after |}
    = joined.
Proof.
  cbn zeta. rewrite !rangeToText_is_flattenedText. cbn [getItems].
  rewrite !flattenedText_app. cbn [flattenedText foldr contribution].
  by rewrite append_assoc.
Qed.

(** X6: the text is as long as the data of the text items taken together,
    plus one for every item that is not text. *)
Theorem rangeToText_length (range : Range) :
  String.length (rangeToText range) = positionsSpanned (getItems range).
Proof. rewrite rangeToText_is_flattenedText. apply flattenedText_length. Qed.

End RangeToTextMore.

Lemma rangeToText_concatenation_witness :
  rangeToText rangeInAbCd
  = rangeToText {| walk := []; getItems := [ TextProxy "ab"; Element "softBreak" 2 ] |}
    +:+ rangeToText {| walk := []; getItems := [ TextProxy "cd" ] |}.
Proof.
  apply (rangeToText_concatenation
           {| walk := []; getItems := [ TextProxy "ab"; Element "softBreak" 2 ] |}
           {| walk := []; getItems := [ TextProxy "cd" ] |}
           rangeInAbCd).
  reflexivity.
Defined.

(** ** More on the scan *)

Section ScanMore.
Context {P : Type} `{DocumentOrder P}.
Variable uid : nat -> string.
Variable model : Model P.
Variable findCallback : Item -> string -> CallbackResult.
Implicit Types (w : World P) (v : WalkerValue) (l : Collection P).

(** What one insertion does, spelled out. *)
Lemma insertFoundItem_eq it foundItem w :
  insertFoundItem uid model it foundItem w
  = (Returns tt,
     {| results := insertBeforeFirstLater (recordFor uid model it (uidCalls w) foundItem)
                     (results w);
        markers := markers w ++ [markerFor uid model it (uidCalls w) foundItem];
        uidCalls := S (uidCalls w) |}).
Proof.
  unfold insertFoundItem, addMarker. cbn [results markers uidCalls].
  fold (markerFor uid model it (uidCalls w) foundItem).
  change (add (results w) ?x (findInsertIndex (results w) ?m))
    with (add (results w) (recordFor uid model it (uidCalls w) foundItem)
            (findInsertIndex (results w)
               (marker (recordFor uid model it (uidCalls w) foundItem)))).
  by rewrite add_at_findInsertIndex.
Qed.

Lemma insertions_return foundItems it w :
  fst (forEach foundItems (insertFoundItem uid model it) w) = Returns tt.
Proof.
  revert w. induction foundItems as [|fi rest IH]; intros w; simpl; [done|].
  rewrite insertFoundItem_eq. apply IH.
Qed.

(** What one step of the scan does, by the hits it has to insert. *)
Lemma scanValue_eq v w :
  scanValue uid model findCallback v w
  = if scanned model v
    then match answerFor model findCallback v with
         | CallbackThrows e => (Throws e, w)
         | _ => forEach (hitsFor model findCallback v) (insertFoundItem uid model (item v)) w
         end
    else (Returns tt, w).
Proof.
  unfold scanValue, hitsFor, scanned, answerFor.
  destruct (type v); [|done..].
  destruct (checkChild model (item v) "$text"); [|done].
  by destruct (findCallback _ _).
Qed.

(** A property of worlds that every insertion keeps is kept by the scan,
    however the scan ends. *)
Lemma insertions_invariant (Inv : World P -> Prop) :
  (forall it foundItem w, Inv w -> Inv (snd (insertFoundItem uid model it foundItem w))) ->
  forall foundItems it w,
    Inv w -> Inv (snd (forEach foundItems (insertFoundItem uid model it) w)).
Proof.
  intros Hstep foundItems it. induction foundItems as [|fi rest IH]; intros w Hw; [done|].
  simpl. pose proof (Hstep it fi w Hw) as Hnext.
  rewrite insertFoundItem_eq in *. by apply IH.
Qed.

Lemma scan_invariant (Inv : World P -> Prop) :
  (forall it foundItem w, Inv w -> Inv (snd (insertFoundItem uid model it foundItem w))) ->
  forall steps w,
    Inv w -> Inv (snd (forEach steps (scanValue uid model findCallback) w)).
Proof.
  intros Hstep steps. induction steps as [|v rest IH]; intros w Hw; [done|].
  simpl. assert (Inv (snd (scanValue uid model findCallback v w))) as Hv.
  { rewrite scanValue_eq. destruct (scanned model v); [|done].
    destruct (answerFor model findCallback v); [done|..];
      by apply insertions_invariant. }
  destruct (scanValue uid model findCallback v w) as [[[]|e] w']; [|done].
  by apply IH.
Qed.


(** X8: the scan only adds: the records that were in the results stay, in
    their order; the markers that were in the marker collection stay in
    front; the count of drawn uids does not go down. *)
Theorem scan_only_adds range w :
  let w' := snd (updateFindResultFromRange uid range model findCallback w) in
  results w `sublist_of` results w' /\
  markers w `prefix_of` markers w' /\
  (uidCalls w <= uidCalls w')%nat.
Proof.
  cbn zeta. unfold updateFindResultFromRange.
  apply (scan_invariant (fun w' =>
    results w `sublist_of` results w' /\
    markers w `prefix_of` markers w' /\
    (uidCalls w <= uidCalls w')%nat)); [|done].
  intros it fi w1 (Hresults & Hmarkers & Huid). rewrite insertFoundItem_eq.
  cbn [snd results markers uidCalls]. split_and!.
  - etrans; [exact Hresults|]. apply insertBeforeFirstLater_sublist.
  - by apply prefix_app_r.
  - lia.
Qed.

Lemma insertBeforeFirstLater_perm (x : FindResult P) l :
  insertBeforeFirstLater x l ≡ₚ x :: l.
Proof.
  induction l as [|y rest IH]; simpl; [done|].
  destruct (isBefore (startOf x) (startOf y)); [done|].
  rewrite IH. apply Permutation_swap.
Qed.

(** X9: markers and records go together: when the markers of the records
    are, up to order, the markers of the marker collection, they still are
    after the call, however it ends. *)
Theorem scan_pairs_markers_with_records range w :
  marker <$> results w ≡ₚ markers w ->
  let w' := snd (updateFindResultFromRange uid range model findCallback w) in
  marker <$> results w' ≡ₚ markers w'.
Proof.
  intros Hw. cbn zeta. unfold updateFindResultFromRange.
  apply (scan_invariant (fun w' => marker <$> results w' ≡ₚ markers w')); [|done].
  intros it fi w1 Hw1. rewrite insertFoundItem_eq. cbn [snd results markers].
  rewrite insertBeforeFirstLater_perm, fmap_cons, Hw1.
  cbn [recordFor marker]. by rewrite Permutation_cons_append.
Qed.

(** X10: every record the scan adds is named after its marker, and its
    marker is neither tracked by operations nor part of the data: when all
    records are so before the call, all are so after it. *)
Theorem scan_makes_records_alike range w :
  Forall (fun r => madeByScan r = true) (results w) ->
  Forall (fun r => madeByScan r = true)
         (results (snd (updateFindResultFromRange uid range model findCallback w))).
Proof.
  intros Hw. unfold updateFindResultFromRange.
  apply (scan_invariant (fun w' => Forall (fun r => madeByScan r = true) (results w')));
    [|done].
  intros it fi w1 Hw1. rewrite insertFoundItem_eq. cbn [snd results].
  rewrite insertBeforeFirstLater_perm. constructor; [|done].
  unfold madeByScan. cbn. by rewrite bool_decide_eq_true_2.
Qed.

End ScanMore.


Lemma scan_pairs_markers_with_records_witness :
  let w' := snd (updateFindResultFromRange letterUid
                   {| walk := walkOf secondParagraph ++ walkOf firstParagraph;
                      getItems := [] |}
                   twoParagraphs findCatSat emptyWorld) in
  marker <$> results w' ≡ₚ markers w'.
Proof.
  apply (scan_pairs_markers_with_records letterUid twoParagraphs findCatSat
           {| walk := walkOf secondParagraph ++ walkOf firstParagraph; getItems := [] |}
           emptyWorld).
  reflexivity.
Defined.

Lemma scan_makes_records_alike_witness :
  Forall (fun r => madeByScan r = true)
    (results (snd (updateFindResultFromRange letterUid
                     {| walk := walkOf secondParagraph ++ walkOf firstParagraph;
                        getItems := [] |}
                     twoParagraphs findCatSat emptyWorld))).
Proof.
  apply (scan_makes_records_alike letterUid twoParagraphs findCatSat
           {| walk := walkOf secondParagraph ++ walkOf firstParagraph; getItems := [] |}
           emptyWorld).
  constructor.
Defined.

Section ScanAccounting.
Context {P : Type} `{DocumentOrder P}.
Variable uid : nat -> string.
Variable model : Model P.
Variable findCallback : Item -> string -> CallbackResult.
Implicit Types (w : World P) (v : WalkerValue) (l : Collection P).

Lemma insertBeforeFirstLater_length (x : FindResult P) l :
  length (insertBeforeFirstLater x l) = S (length l).
Proof.
  induction l as [|y rest IH]; simpl; [done|].
  destruct (isBefore (startOf x) (startOf y)); simpl; lia.
Qed.

Lemma insertions_count foundItems it w :
  let w' := snd (forEach foundItems (insertFoundItem uid model it) w) in
  length (results w') = (length (results w) + length foundItems)%nat /\
  length (markers w') = (length (markers w) + length foundItems)%nat /\
  uidCalls w' = (uidCalls w + length foundItems)%nat.
Proof.
  cbn zeta. revert w. induction foundItems as [|fi rest IH]; intros w; simpl.
  - lia.
  - rewrite insertFoundItem_eq.
    destruct (IH {| results := insertBeforeFirstLater (recordFor uid model it (uidCalls w) fi)
                                 (results w);
                    markers := markers w ++ [markerFor uid model it (uidCalls w) fi];
                    uidCalls := S (uidCalls w) |}) as (Hr & Hm & Hu).
    cbn [results markers uidCalls] in *.
    rewrite Hr, Hm, Hu, insertBeforeFirstLater_length, length_app. simpl. lia.
Qed.

(** X11: when the call completes, the results have grown by one record for
    every hit the matcher answered for the scanned elements, and so have the
    marker collection and the count of drawn uids. *)
Theorem scan_adds_one_record_per_hit range w w' :
  updateFindResultFromRange uid range model findCallback w = (Returns tt, w') ->
  let hits := sum_list_with (fun v => length (hitsFor model findCallback v)) (walk range) in
  length (results w') = (length (results w) + hits)%nat /\
  length (markers w') = (length (markers w) + hits)%nat /\
  uidCalls w' = (uidCalls w + hits)%nat.
Proof.
  unfold updateFindResultFromRange. generalize (walk range) as steps.
  intros steps. revert w. induction steps as [|v rest IH]; intros w.
  - simpl. intros [= <-]. lia.
  - cbn [forEach sum_list_with].
    pose proof (scanValue_eq uid model findCallback v w) as Hv.
    destruct (scanValue uid model findCallback v w) as [[[]|e] w1]; [|done].
    intros Hrest. destruct (IH w1 Hrest) as (Hr & Hm & Hu).
    assert (length (results w1)
            = (length (results w) + length (hitsFor model findCallback v))%nat /\
            length (markers w1)
            = (length (markers w) + length (hitsFor model findCallback v))%nat /\
            uidCalls w1 = (uidCalls w + length (hitsFor model findCallback v))%nat)
      as (Hr1 & Hm1 & Hu1).
    { pose proof (insertions_count (hitsFor model findCallback v) (item v) w) as Hcount.
      cbn zeta in Hcount. unfold hitsFor in *.
      destruct (scanned model v).
      - destruct (answerFor model findCallback v); [done|..]; by rewrite <- Hv in Hcount.
      - injection Hv as <-. simpl. lia. }
    rewrite Hr, Hm, Hu, Hr1, Hm1, Hu1. cbn zeta. lia.
Qed.

(** X12: only the starts of elements in which the schema allows text count:
    the call does to the world what it does for the range without all the
    other values (texts, ends of elements, starts of other elements). *)
Theorem scan_skips_other_values range w :
  updateFindResultFromRange uid range model findCallback w
  = updateFindResultFromRange uid
      {| walk := List.filter (scanned model) (walk range); getItems := getItems range |}
      model findCallback w.
Proof.
  unfold updateFindResultFromRange. cbn [walk]. generalize (walk range) as steps.
  intros steps. revert w. induction steps as [|v rest IH]; intros w; [done|].
  cbn [List.filter]. destruct (scanned model v) eqn:Hv.
  - cbn [forEach]. destruct (scanValue uid model findCallback v w) as [[[]|e] w1]; [|done].
    apply IH.
  - cbn [forEach]. rewrite scanValue_eq, Hv. apply IH.
Qed.

(** X13: scanning a range that is one range followed by another is scanning
    the first and, if that completes, the second in the world the first
    left; if the first throws, the second is not scanned. *)
Theorem scan_of_ranges_in_sequence (first second both : Range) w :
  walk both = walk first ++ walk second ->
  updateFindResultFromRange uid both model findCallback w
  = match updateFindResultFromRange uid first model findCallback w with
    | (Returns _, w1) => updateFindResultFromRange uid second model findCallback w1
    | (Throws e, w1) => (Throws e, w1)
    end.
Proof.
  intros Hwalk. unfold updateFindResultFromRange. rewrite Hwalk. apply forEach_app.
Qed.

(** X14: the insertion for one hit puts the new record at the index
    [findInsertIndex] computed for its marker, leaves the records in front
    of that index where they were and moves the others one place back; the
    record has the id ["findResult:" + uid], the label of the hit and a marker
    over the offsets of the hit in the element. *)
Theorem insertFoundItem_places_record it foundItem w :
  let x := recordFor uid model it (uidCalls w) foundItem in
  let i := Z.to_nat (findInsertIndex (results w) (marker x)) in
  exists w',
    insertFoundItem uid model it foundItem w = (Returns tt, w') /\
    results w' !! i = Some x /\
    take i (results w') = take i (results w) /\
    drop (S i) (results w') = drop i (results w) /\
    markers w' = markers w ++ [marker x] /\
    uidCalls w' = S (uidCalls w).
Proof.
  cbn zeta. eexists. split; [apply insertFoundItem_eq|].
  cbn [results markers uidCalls].
  set (x := recordFor uid model it (uidCalls w) foundItem).
  set (i := Z.to_nat (findInsertIndex (results w) (marker x))).
  assert (i <= length (results w))%nat as Hi.
  { pose proof (findInsertIndex_range (results w) (marker x)). unfold i. lia. }
  assert (insertBeforeFirstLater x (results w)
          = take i (results w) ++ x :: drop i (results w)) as ->.
  { pose proof (add_at_findInsertIndex (results w) x) as Hadd. unfold add in Hadd.
    destruct (_ || _); [done|]. by injection Hadd as <-. }
  assert (length (take i (results w)) = i) as Hlen by by apply length_take_le.
  split_and!.
  - by apply list_lookup_middle.
  - by rewrite take_app_length'.
  - rewrite (cons_middle x), app_assoc. apply drop_app_length'.
    rewrite length_app, Hlen. simpl. lia.
  - done.
  - done.
Qed.

Lemma sortedByStart_app_cons l (x : FindResult P) rest :
  sortedByStart (l ++ x :: rest) = true ->
  Forall (fun r => isBefore (startOf x) (startOf r) = false) l.
Proof.
  intros Hsorted. apply Forall_lookup. intros j r Hj.
  apply (sortedByStart_lookup (l ++ x :: rest) j (length l)).
  - done.
  - by apply lookup_lt_Some in Hj.
  - by apply lookup_app_l_Some.
  - by apply list_lookup_middle.
Qed.

Lemma insertions_in_order foundItems it w :
  sortedByStart (results w ++ recordsFrom uid model it (uidCalls w) foundItems) = true ->
  results (snd (forEach foundItems (insertFoundItem uid model it) w))
  = results w ++ recordsFrom uid model it (uidCalls w) foundItems.
Proof.
  revert w. induction foundItems as [|fi rest IH]; intros w Hsorted.
  - simpl. by rewrite app_nil_r.
  - cbn [forEach recordsFrom] in *. rewrite insertFoundItem_eq.
    rewrite (insertBeforeFirstLater_end _ _ (sortedByStart_app_cons _ _ _ Hsorted)).
    rewrite IH; cbn [results uidCalls].
    + by rewrite <- app_assoc.
    + by rewrite <- app_assoc.
Qed.

(** X15: hits that come in document order are appended in the order they
    were found: when the results followed by the records for the hits of an
    element, in the order of the hits, are sorted by start, then these are
    the results after the step for that element. *)
Theorem hits_in_document_order_are_appended v foundItems w :
  scanned model v = true ->
  answerFor model findCallback v = CallbackFound foundItems ->
  sortedByStart
    (results w ++ recordsFrom uid model (item v) (uidCalls w) foundItems) = true ->
  scanValue uid model findCallback v w
  = (Returns tt, snd (scanValue uid model findCallback v w)) /\
  results (snd (scanValue uid model findCallback v w))
  = results w ++ recordsFrom uid model (item v) (uidCalls w) foundItems.
Proof.
  intros Hscanned Hanswer Hsorted.
  rewrite scanValue_eq, Hscanned, Hanswer.
  unfold hitsFor. rewrite Hscanned, Hanswer. split.
  - pose proof (insertions_return uid model foundItems (item v) w) as Hret.
    destruct (forEach foundItems _ w) as [o w1]. simpl in *. by rewrite Hret.
  - by apply insertions_in_order.
Qed.

Lemma prefixed_inj (a b : string) :
  "findResult:" +:+ a = "findResult:" +:+ b -> a = b.
Proof. intros Heq. by injection Heq. Qed.

(** X16: when [uid] never hands out a token twice, the ids stay pairwise
    distinct: if the ids in the results are distinct and were made from uids
    drawn earlier, the same holds after the call, however it ends. *)
Theorem scan_keeps_ids_distinct range w :
  (forall a b : nat, uid a = uid b -> a = b) ->
  idsDrawn uid w ->
  NoDup (id <$> results w) ->
  let w' := snd (updateFindResultFromRange uid range model findCallback w) in
  idsDrawn uid w' /\ NoDup (id <$> results w').
Proof.
  intros Hinj Hdrawn Hnodup. cbn zeta. unfold updateFindResultFromRange.
  apply (scan_invariant uid model findCallback
           (fun w' => idsDrawn uid w' /\ NoDup (id <$> results w'))); [|done].
  intros it fi w1 [Hdrawn1 Hnodup1]. rewrite insertFoundItem_eq.
  unfold idsDrawn in *. cbn [snd results uidCalls].
  rewrite insertBeforeFirstLater_perm. split.
  - constructor.
    + exists (uidCalls w1). split; [lia|done].
    + eapply Forall_impl; [exact Hdrawn1|].
      intros r (k & Hk & Hid). exists k. split; [lia|done].
  - rewrite fmap_cons. apply NoDup_cons. split; [|done].
    intros Hin. apply list_elem_of_fmap in Hin as (r & Hid & Hr).
    rewrite Forall_forall in Hdrawn1. destruct (Hdrawn1 r Hr) as (k & Hk & Hidr).
    cbn [recordFor id] in Hid. rewrite Hidr in Hid.
    apply prefixed_inj, Hinj in Hid. lia.
Qed.

End ScanAccounting.

Lemma tallyUid_inj (a b : nat) : tallyUid a = tallyUid b -> a = b.
Proof.
  revert b. induction a as [|a IH]; intros [|b] Heq; simpl in Heq; try done.
  injection Heq as Heq. by rewrite (IH b Heq).
Qed.

(** The scenario of the specification: "cat sat" with the hits for "cat" and
    "sat", scanned into empty results, gives the two records in that order. *)
Lemma hits_in_document_order_are_appended_witness :
  let v := {| type := elementStart; item := secondParagraph |} in
  scanValue letterUid twoParagraphs findCatSat v emptyWorld
  = (Returns tt, snd (scanValue letterUid twoParagraphs findCatSat v emptyWorld)) /\
  results (snd (scanValue letterUid twoParagraphs findCatSat v emptyWorld))
  = [] ++ recordsFrom letterUid twoParagraphs secondParagraph 0 catSatHits.
Proof.
  apply (hits_in_document_order_are_appended letterUid twoParagraphs findCatSat
           {| type := elementStart; item := secondParagraph |} catSatHits emptyWorld);
    reflexivity.
Defined.

Lemma scan_adds_one_record_per_hit_witness :
  let range := {| walk := walkOf firstParagraph ++ walkOf secondParagraph;
                  getItems := [] |} in
  let w' := snd (updateFindResultFromRange letterUid range twoParagraphs findCatSat
                   emptyWorld) in
  length (results w') = (0 + 4)%nat /\
  length (markers w') = (0 + 4)%nat /\
  uidCalls w' = (0 + 4)%nat.
Proof.
  apply (scan_adds_one_record_per_hit letterUid twoParagraphs findCatSat
           {| walk := walkOf firstParagraph ++ walkOf secondParagraph; getItems := [] |}
           emptyWorld).
  reflexivity.
Defined.

Lemma scan_of_ranges_in_sequence_witness :
  updateFindResultFromRange letterUid
    {| walk := walkOf secondParagraph ++ walkOf firstParagraph; getItems := [] |}
    twoParagraphs faultyOnFirst emptyWorld
  = match updateFindResultFromRange letterUid
            {| walk := walkOf secondParagraph; getItems := [] |}
            twoParagraphs faultyOnFirst emptyWorld with
    | (Returns _, w1) =>
        updateFindResultFromRange letterUid
          {| walk := walkOf firstParagraph; getItems := [] |}
          twoParagraphs faultyOnFirst w1
    | (Throws e, w1) => (Throws e, w1)
    end.
Proof.
  apply (scan_of_ranges_in_sequence letterUid twoParagraphs faultyOnFirst
           {| walk := walkOf secondParagraph; getItems := [] |}
           {| walk := walkOf firstParagraph; getItems := [] |}
           {| walk := walkOf secondParagraph ++ walkOf firstParagraph; getItems := [] |}
           emptyWorld).
  reflexivity.
Defined.

Lemma scan_keeps_ids_distinct_witness :
  let w' := snd (updateFindResultFromRange tallyUid
                   {| walk := walkOf firstParagraph ++ walkOf secondParagraph;
                      getItems := [] |}
                   twoParagraphs findCatSat emptyWorld) in
  idsDrawn tallyUid w' /\ NoDup (id <$> results w').
Proof.
  apply (scan_keeps_ids_distinct tallyUid twoParagraphs findCatSat
           {| walk := walkOf firstParagraph ++ walkOf secondParagraph; getItems := [] |}
           emptyWorld).
  - exact tallyUid_inj.
  - constructor.
  - constructor.
Defined.

(** ** More on the lifecycle of an observer *)

Section ObserverMore.
Context {Document View : Type}.
Implicit Types (o : Observer Document View) (calls : list Call).

Lemma call_view_document o (c : Call) :
  view (call o c) = view o /\ document (call o c) = document o.
Proof. by destruct c. Qed.

Lemma callAll_view_document o calls :
  view (callAll o calls) = view o /\ document (callAll o calls) = document o.
Proof.
  revert o. induction calls as [|c rest IH]; intros o; [done|].
  destruct (IH (call o c)) as [Hv Hd]. destruct (call_view_document o c) as [Hv' Hd'].
  unfold callAll in *. simpl. by rewrite Hv, Hd, Hv', Hd'.
Qed.

(** X17: after any sequence of [enable()], [disable()] and [destroy()]
    calls the observer is enabled exactly when the last call was
    [enable()] (without calls the flag is what it was), and its view and
    document are those it was constructed with. *)
Theorem lifecycle_calls_flag_and_fields o calls :
  isEnabled (callAll o calls)
  = match lastCall calls with
    | Some CallEnable => true
    | Some _ => false
    | None => isEnabled o
    end /\
  view (callAll o calls) = view o /\
  document (callAll o calls) = document o.
Proof.
  split; [|apply callAll_view_document].
  unfold lastCall. destruct calls as [|c rest] using rev_ind; [done|].
  rewrite callAll_snoc, last_snoc. by destruct c.
Qed.

(** X18: the listeners of an observer change only by [destroy()]: after a
    sequence of lifecycle calls they are all released if [destroy()] was among
    the calls, and are what they were otherwise. *)
Theorem lifecycle_calls_listeners o calls :
  listeners (callAll o calls)
  = if bool_decide (CallDestroy ∈ calls) then [] else listeners o.
Proof.
  induction calls as [|c rest IH] using rev_ind; [done|].
  rewrite callAll_snoc.
  assert (c <> CallDestroy -> (CallDestroy ∈ rest ++ [c] <-> CallDestroy ∈ rest)) as Hiff.
  { intros Hc. rewrite elem_of_app, list_elem_of_singleton.
    split; [intros [?|?]; [done|congruence]|by left]. }
  destruct c; simpl.
  - rewrite IH. erewrite bool_decide_ext; [reflexivity|]. symmetry. by apply Hiff.
  - rewrite IH. erewrite bool_decide_ext; [reflexivity|]. symmetry. by apply Hiff.
  - rewrite bool_decide_eq_true_2; [done|].
    apply elem_of_app. right. apply list_elem_of_here.
Qed.

(** X19: [destroy()] leaves the same observer whatever was called before it:
    disabled, without listeners, with its view and document; calling it
    again changes nothing. *)
Theorem destroy_forgets_earlier_calls o calls :
  callAll o (calls ++ [CallDestroy]) = destroy o /\
  destroy (destroy o) = destroy o.
Proof.
  split; [|done]. rewrite callAll_snoc. cbn [call].
  destruct (callAll_view_document o calls) as [Hv Hd].
  unfold destroy, stopListening, disable. cbn. by rewrite Hv, Hd.
Qed.

End ObserverMore.

(** ** More on filtering event targets *)

Section EventTargetMore.

Lemma ancestors_of_ancestor (p n : DomNode) :
  p ∈ ancestors n -> forall a, a ∈ ancestors p -> a ∈ ancestors n.
Proof.
  induction n as [k|k q IH] using DomNode_chain_ind; cbn [ancestors].
  - intros Hin. by apply elem_of_nil in Hin.
  - intros [->|Hin]%elem_of_cons a Ha.
    + by apply list_elem_of_further.
    + apply list_elem_of_further. by apply IH.
Qed.

Lemma existsb_carries (nodes : list DomNode) :
  existsb carriesIgnoreMarker nodes = true
  <-> exists a, a ∈ nodes /\ carriesIgnoreMarker a = true.
Proof.
  rewrite existsb_exists. split; intros (a & Hin & Ha); exists a;
    (split; [by apply list_elem_of_In|done]).
Qed.

(** An event from [p] is ignored only if [p] or an ancestor of it carries
    the attribute. *)
Lemma ignored_has_marked_ancestor (p : DomNode) :
  checkShouldIgnoreEventFromTarget (JsNode p) = Returns true ->
  exists a, a ∈ p :: ancestors p /\ carriesIgnoreMarker a = true.
Proof.
  intros Hp. destruct (isTextNode p) eqn:Htext.
  - rewrite check_on_text in Hp by done.
    destruct p as [k [q|]]; cbn [parentNode] in Hp; [|done].
    destruct (isElementNode q); [|done].
    assert (existsb carriesIgnoreMarker (q :: ancestors q) = true) as Hq
      by (by injection Hp).
    apply existsb_carries in Hq as (a & Hin & Ha).
    exists a. split; [|done]. cbn [ancestors]. by apply list_elem_of_further.
  - destruct (isElementNode p) eqn:Hel.
    + rewrite check_on_element in Hp by done.
      apply existsb_carries. by injection Hp.
    + by rewrite check_on_other in Hp.
Qed.

(** X20: the marker covers the whole subtree: when events from a node are
    ignored, events from every element below it are ignored. *)
Theorem ignored_covers_elements_below (p n : DomNode) :
  checkShouldIgnoreEventFromTarget (JsNode p) = Returns true ->
  isElementNode n = true ->
  p ∈ ancestors n ->
  checkShouldIgnoreEventFromTarget (JsNode n) = Returns true.
Proof.
  intros Hp Hel Hbelow. rewrite check_on_element by done. f_equal.
  destruct (ignored_has_marked_ancestor p Hp) as (a & Hin & Ha).
  apply existsb_carries. exists a. split; [|done].
  apply list_elem_of_further. apply elem_of_cons in Hin as [->|Hin]; [done|].
  by apply (ancestors_of_ancestor p n).
Qed.

(** X21: an event from a text node is treated as an event from its parent:
    the answer for a text node is the answer for its parent node, the parent
    being a node other than a text node. *)
Theorem text_target_answers_as_parent (n p : DomNode) :
  isTextNode n = true ->
  parentNode n = Some p ->
  isTextNode p = false ->
  checkShouldIgnoreEventFromTarget (JsNode n) = checkShouldIgnoreEventFromTarget (JsNode p).
Proof.
  intros Htext Hparent Hp. rewrite check_on_text, Hparent by done.
  destruct (isElementNode p) eqn:Hel.
  - by rewrite check_on_element.
  - by rewrite check_on_other.
Qed.

(** X22: events from a node that is neither an element nor a text node
    (a comment, a document, a fragment, a CDATA section, ...) are never
    ignored, whatever its ancestors carry; nor are events from a text node
    whose parent is not an element. *)
Theorem only_elements_and_their_texts_ignored (n : DomNode) :
  checkShouldIgnoreEventFromTarget (JsNode n) = Returns true ->
  isElementNode n = true \/
  (isTextNode n = true /\ exists p, parentNode n = Some p /\ isElementNode p = true).
Proof.
  intros Hn. destruct (isElementNode n) eqn:Hel; [by left|right].
  destruct (isTextNode n) eqn:Htext; [|by rewrite check_on_other in Hn].
  split; [done|]. rewrite check_on_text in Hn by done.
  destruct (parentNode n) as [p|]; [|done]. exists p. split; [done|].
  by destruct (isElementNode p).
Qed.

End EventTargetMore.

Lemma ignored_covers_elements_below_witness :
  checkShouldIgnoreEventFromTarget (JsNode buttonInWidget) = Returns true.
Proof.
  apply (ignored_covers_elements_below ignoredWidget buttonInWidget).
  - reflexivity.
  - reflexivity.
  - apply list_elem_of_here.
Defined.

Lemma text_target_answers_as_parent_witness :
  checkShouldIgnoreEventFromTarget (JsNode textInWidget)
  = checkShouldIgnoreEventFromTarget (JsNode ignoredWidget).
Proof.
  apply (text_target_answers_as_parent textInWidget ignoredWidget); reflexivity.
Defined.

Lemma only_elements_and_their_texts_ignored_witness :
  isElementNode textInWidget = true \/
  (isTextNode textInWidget = true /\
   exists p, parentNode textInWidget = Some p /\ isElementNode p = true).
Proof.
  apply (only_elements_and_their_texts_ignored textInWidget). reflexivity.
Defined.
